(** * strava-viz: the route map renderer (src/components/RouteMap.tsx)

    A shallow embedding of the projection, decimation, animation and
    re-render logic of the [RouteMap] component, with the properties the
    specification states about them.

    Numbers.  A JavaScript [number] is an IEEE 754 binary64 value, and the
    development has it twice.

    - In the module [Double] a number is a kernel [float]: the operators
      [+ - * /] round to nearest, the comparisons are false on [NaN], and
      [Math.round] and [Math.ceil] are computed on the rational the double
      stands for.  The numeric kernels of the component (the projection, the
      test of the resolution, the step of the decimation, the budget of the
      animation and the count of a catch-up) are stated there, as every
      property that depends on the value a computation returns.

    - Outside of it a number is an exact rational [Q], and the operators,
      [Math.abs], [Math.min], [Math.round] and [Math.ceil] are the exact
      ones; [NaN] and the infinities are not in it.  This is the reading of
      the formulas in real arithmetic; the properties stated on it are on
      the order of the strokes, the frames and the re-renders, on the sizing
      formulas and on the comparisons of the filter.

    Array indices and lengths are naturals, canvas pixels and canvas
    dimensions are integers. *)

From Stdlib Require Import ZArith QArith Qround Qabs Qminmax Lia Lqa Floats Uint63.
From stdpp Require Import base list strings gmap pretty.

Local Open Scope Q_scope.

(** ** JavaScript [Math] on exact rationals *)
Module JsMath.

(** [Math.round]: the nearest integer, a tie going up ([Math.round(2.5)]
    is 3 and [Math.round(-2.5)] is -2). *)
Definition round (q : Q) : Z := Qfloor (q + (1 # 2)).

(** [Math.ceil]. *)
Definition ceil (q : Q) : Z := Qceiling q.

(** [Math.abs]. *)
Definition abs (q : Q) : Q := Qabs q.

(** [Math.min] on two arguments. *)
Definition min (a b : Q) : Q := Qmin a b.

End JsMath.

(** ** Coordinates, bounds and the projection *)

(** [interface Coords { lat; lon }] *)
Record Coords := mkCoords { lat : Q; lon : Q }.

(** The object [normalizeCoordinates] returns. *)
Record NormPoint := mkNormPoint { nx : Q; ny : Q }.

(** The object [coordinatesToBoundedCanvasPoint] returns: both fields come
    out of [Math.round]. *)
Record Pixel := mkPixel { px : Z; py : Z }.

(** [interface GeoBounds] *)
Record GeoBounds := mkGeoBounds {
  leftLon : Q;
  rightLon : Q;
  upperLat : Q;
  lowerLat : Q
}.

(** What the projection reads of [context.canvas]: the [width] and
    [height] of an [HTMLCanvasElement] are integers. *)
Record Canvas := mkCanvas { width : Z; height : Z }.

Definition normalizeLat (lat : Q) : Q := 90 - lat.
Definition normalizeLon (lon : Q) : Q := 180 + lon.

Definition normalizeCoordinates (c : Coords) : NormPoint :=
  {| nx := normalizeLon (lon c); ny := normalizeLat (lat c) |}.

Definition coordinatesToBoundedCanvasPoint
    (c : Coords) (canvas : Canvas) (geoBounds : GeoBounds) : Pixel :=
  let normalizedCoords := normalizeCoordinates c in
  let normalizedMinX := normalizeLon (leftLon geoBounds) in
  let normalizedMaxX := normalizeLon (rightLon geoBounds) in
  let normalizedMinY := normalizeLat (upperLat geoBounds) in
  let normalizedMaxY := normalizeLat (lowerLat geoBounds) in
  let xRange := normalizedMaxX - normalizedMinX in
  let yRange := normalizedMaxY - normalizedMinY in
  let xRelativeToBounds := (nx normalizedCoords - normalizedMinX) / xRange in
  let yRelativeToBounds := (ny normalizedCoords - normalizedMinY) / yRange in
  {| px := JsMath.round (xRelativeToBounds * inject_Z (width canvas));
     py := JsMath.round (yRelativeToBounds * inject_Z (height canvas)) |}.

(** The bounds the specification calls non-degenerate. *)
Definition nondegenerate (b : GeoBounds) : Prop :=
  leftLon b < rightLon b /\ lowerLat b < upperLat b.

(** The projection as the specification words it (section 4.2, steps 1 to
    4), to be compared with the function above. *)
Module ProjectionSpec.

Definition xFrac (c : Coords) (b : GeoBounds) : Q :=
  ((180 + lon c) - (180 + leftLon b)) / ((180 + rightLon b) - (180 + leftLon b)).

Definition yFrac (c : Coords) (b : GeoBounds) : Q :=
  ((90 - lat c) - (90 - upperLat b)) / ((90 - lowerLat b) - (90 - upperLat b)).

Definition project (c : Coords) (b : GeoBounds) (surfaceWidth surfaceHeight : Z) : Pixel :=
  {| px := JsMath.round (xFrac c b * inject_Z surfaceWidth);
     py := JsMath.round (yFrac c b * inject_Z surfaceHeight) |}.

End ProjectionSpec.

(** ** Surface sizing (the body of [RouteMap] after the effect) *)

Definition MAX_WIDTH : Q := 20000.

Record SurfaceSize := mkSurfaceSize { effectiveWidth : Q; effectiveHeight : Q }.

Definition widthInDegrees (geoBounds : GeoBounds) : Q :=
  JsMath.abs (leftLon geoBounds - rightLon geoBounds).

Definition heightInDegrees (geoBounds : GeoBounds) : Q :=
  JsMath.abs (upperLat geoBounds - lowerLat geoBounds).

Definition aspectRatio (geoBounds : GeoBounds) : Q :=
  widthInDegrees geoBounds / heightInDegrees geoBounds.

Definition surfaceSize (geoBounds : GeoBounds) (mapResolution : Q) : SurfaceSize :=
  let w := JsMath.min (widthInDegrees geoBounds * mapResolution) MAX_WIDTH in
  {| effectiveWidth := w; effectiveHeight := w / aspectRatio geoBounds |}.

(** The sizing as the specification words it (section 4.6). *)
Module SizingSpec.

Definition widthDeg (b : GeoBounds) : Q := Qabs (leftLon b - rightLon b).
Definition heightDeg (b : GeoBounds) : Q := Qabs (upperLat b - lowerLat b).
Definition aspect (b : GeoBounds) : Q := widthDeg b / heightDeg b.
Definition width (b : GeoBounds) (pixelsPerDegree maxWidth : Q) : Q :=
  Qmin (widthDeg b * pixelsPerDegree) maxWidth.
Definition height (b : GeoBounds) (pixelsPerDegree maxWidth : Q) : Q :=
  width b pixelsPerDegree maxWidth / aspect b.

End SizingSpec.

(** ** Routes and props *)

(** [type Waypoint = Coords] *)
Abbreviation Waypoint := Coords.

(** [type Route]; [startDate] is kept as a timestamp and [type] as the
    enum's string, the renderer reads neither. *)
Record Route := mkRoute {
  routeId : Z;
  routeName : string;
  startDate : Z;
  activityType : string;
  waypoints : list Waypoint
}.

(** The props of [RouteMap] as its body sees them, that is after the
    defaults of the parameter list have been filled in; [routes] is passed
    to [renderRoutes] as its argument and [canvasStyles] only reaches the
    JSX. *)
Record Props := mkProps {
  geoBounds : GeoBounds;
  pathResolution : Q;
  duration : Q;
  thickness : Q;
  mapResolution : Q;
  bgColor : option string;
  pathColor : string
}.

(** The defaults of the parameter list. *)
Definition defaultProps (b : GeoBounds) : Props :=
  {| geoBounds := b;
     pathResolution := 1;
     duration := 750;
     thickness := 1;
     mapResolution := 5000;
     bgColor := None;
     pathColor := "rgb(0,0,0,0.25)" |}.

(** ** The drawing surface *)

(** The calls that paint on the 2D context.  A stroke carries the style
    the context had when [stroke()] ran ([lineCap] and [lineJoin] are always
    ["round"]) and the two end points of its path. *)
Inductive DrawOp :=
| ClearRect (x y w h : Z)
| FillRect (fillStyle : string) (x y w h : Z)
| StrokeLine (lineWidth : Q) (strokeStyle : string) (from to : Pixel).

(** [waypoints[i]] for a JavaScript index: [undefined] outside the array. *)
Definition arrayAt {A} (l : list A) (i : Z) : option A :=
  if (i <? 0)%Z then None else l !! Z.to_nat i.

(** The stroke [addPath] paints between two waypoints, with the
    [thickness] and [pathColor] of the props. *)
Definition strokeBetween (p : Props) (canvas : Canvas) (f t : Coords) : DrawOp :=
  StrokeLine (thickness p) (pathColor p)
    (coordinatesToBoundedCanvasPoint f canvas (geoBounds p))
    (coordinatesToBoundedCanvasPoint t canvas (geoBounds p)).

(** [addPath].  Its arguments are array reads and may be [undefined];
    destructuring [undefined] in [coordinatesToBoundedCanvasPoint] throws a
    [TypeError] before anything is painted: [None]. *)
Definition addPath (p : Props) (canvas : Canvas) (from to : option Coords)
    : option DrawOp :=
  f ← from;
  t ← to;
  Some (strokeBetween p canvas f t).

(** ** Decimation *)

(** [Array.prototype.filter] with the two-argument callback. *)
Fixpoint filterFrom {A} (f : A -> nat -> bool) (i : nat) (l : list A) : list A :=
  match l with
  | [] => []
  | a :: l' => if f a i then a :: filterFrom f (S i) l' else filterFrom f (S i) l'
  end.

Definition arrayFilter {A} (f : A -> nat -> bool) (l : list A) : list A :=
  filterFrom f 0 l.

Definition renderEveryNthPoint (pathResolution : Q) : Z :=
  JsMath.ceil (1 / pathResolution).

(** [i % every === 0] *)
Definition isMultipleOf (every : Z) (i : nat) : bool :=
  (Z.rem (Z.of_nat i) every =? 0)%Z.

(** The callback of the filter; [len] is [route.waypoints.length] and [%]
    on a non-negative index is the truncating remainder. *)
Definition keepWaypoint (len : nat) (every : Z) (i : nat) : bool :=
  (Z.of_nat i =? 0)%Z
  || isMultipleOf every i
  || (Z.of_nat i =? Z.of_nat len - 1)%Z.

Definition decimate (every : Z) (ws : list Waypoint) : list Waypoint :=
  arrayFilter (fun _ i => keepWaypoint (length ws) every i) ws.

Definition waypointsToRender (p : Props) (route : Route) : list Waypoint :=
  decimate (renderEveryNthPoint (pathResolution p)) (waypoints route).

(** The indices the filter keeps, in increasing order. *)
Definition keptIndices (every : Z) (len : nat) : list nat :=
  List.filter (keepWaypoint len every) (seq 0 len).

(** [pathResolution <= 0 || pathResolution > 1] *)
Definition invalidResolution (r : Q) : bool :=
  Qle_bool r 0 || negb (Qle_bool r 1).

(** ** Instantaneous drawing: the [for] loop of [renderRoutes] *)

(** [for (let i = 1; i < waypointsToRender.length; i += 1) addPath(...)]:
    the list of strokes, or [None] if a call were to throw
    ([drawAll_segments] below shows that none does). *)
Definition drawAll (p : Props) (canvas : Canvas) (ws : list Waypoint)
    : option (list DrawOp) :=
  mapM (fun i : nat =>
          addPath p canvas (arrayAt ws (Z.of_nat i - 1)) (arrayAt ws (Z.of_nat i)))
       (seq 1 (length ws - 1)).

(** ** Animated drawing: [animateRenderWaypoints] *)

(** The mutable variables the closure [step] captures.  The third one,
    [lastAnimationFrame], is only read to cancel the callback that is
    running when the promise resolves, which cancels nothing; the handles
    themselves are modelled with the host below. *)
Record AnimState := mkAnim {
  waypointIndex : nat;
  lastPointAddedAtTime : option Q
}.

(** What one run of the frame callback reads from its environment: the
    [timestamp] argument and [performance.now()].  The clock is read after
    every stroke but each reading overwrites the previous one, so a tick
    carries the one reading that survives it. *)
Record Tick := mkTick { timestamp : Q; now : Q }.

Definition delay (p : Props) (ws : list Waypoint) : Q :=
  (duration p / inject_Z (Z.of_nat (length ws))) * (4 # 5).

Definition initialAnim : AnimState :=
  {| waypointIndex := 1; lastPointAddedAtTime := None |}.

(** The body of a callback up to its last [if]: either the variables and
    the strokes painted, or the strokes painted before an exception. *)
Inductive Body :=
| Ran (st : AnimState) (ops : list DrawOp)
| Raised (ops : list DrawOp).

(** The inner [for] loop, [iters] iterations to go. *)
Fixpoint catchUp (p : Props) (canvas : Canvas) (ws : list Waypoint) (t : Tick)
    (iters : nat) (st : AnimState) (ops : list DrawOp) : Body :=
  match iters with
  | O => Ran st ops
  | S k =>
      match ws !! waypointIndex st with
      | None => catchUp p canvas ws t k st ops
      | Some wp =>
          match addPath p canvas
                  (arrayAt ws (Z.of_nat (waypointIndex st) - 1)) (Some wp) with
          | None => Raised ops
          | Some op =>
              catchUp p canvas ws t k
                {| waypointIndex := waypointIndex st + 1;
                   lastPointAddedAtTime := Some (now t) |}
                (ops ++ [op])
          end
      end
  end.

Definition stepBody (p : Props) (canvas : Canvas) (ws : list Waypoint)
    (st : AnimState) (t : Tick) : Body :=
  match lastPointAddedAtTime st with
  | None =>
      match addPath p canvas
              (arrayAt ws (Z.of_nat (waypointIndex st) - 1))
              (arrayAt ws (Z.of_nat (waypointIndex st))) with
      | None => Raised []
      | Some op =>
          Ran {| waypointIndex := waypointIndex st + 1;
                 lastPointAddedAtTime := Some (now t) |} [op]
      end
  | Some last =>
      let timeDiff := timestamp t - last in
      if Qle_bool (delay p ws) timeDiff then
        let numPointsToRenderThisFrame := JsMath.ceil (timeDiff / delay p ws) in
        catchUp p canvas ws t (Z.to_nat numPointsToRenderThisFrame) st []
      else Ran st []
  end.

(** One run of the callback [step]. *)
Inductive StepOutcome :=
| Threw (ops : list DrawOp)
| Again (st : AnimState) (ops : list DrawOp)
| Resolved (ops : list DrawOp).

Definition step (p : Props) (canvas : Canvas) (ws : list Waypoint)
    (st : AnimState) (t : Tick) : StepOutcome :=
  match stepBody p canvas ws st t with
  | Raised ops => Threw ops
  | Ran st' ops =>
      if (waypointIndex st' <? length ws)%nat then Again st' ops else Resolved ops
  end.

(** ** The render call: [renderRoutes] *)

Inductive RenderError :=
| InvalidPathResolution (r : Q)
| TypeError.

(** Where a call of the async function [renderRoutes] stands. *)
Inductive CallStatus :=
| ReturnedNull
| Rejected (e : RenderError)
| Fulfilled
| Animating (ws : list Waypoint) (st : AnimState) (rest : list Route)
| Stalled.

(** [if (bgColor)]: [null] and the empty string are falsy. *)
Definition truthy (s : option string) : option string :=
  match s with
  | Some c => if decide (c = "") then None else Some c
  | None => None
  end.

(** The [for ... of] loop over the routes, up to its first suspension. *)
Fixpoint renderLoop (p : Props) (canvas : Canvas) (routesToRender : list Route)
    : CallStatus * list DrawOp :=
  match routesToRender with
  | [] => (Fulfilled, [])
  | route :: rest =>
      if invalidResolution (pathResolution p)
      then (Rejected (InvalidPathResolution (pathResolution p)), [])
      else
        let ws := waypointsToRender p route in
        if Qeq_bool (duration p) 0 then
          match drawAll p canvas ws with
          | None => (Rejected TypeError, [])
          | Some ops =>
              let '(s, ops') := renderLoop p canvas rest in (s, ops ++ ops')
          end
        else (Animating ws initialAnim rest, [])
  end.

Definition paintBackground (p : Props) (canvas : Canvas) : list DrawOp :=
  ClearRect 0 0 (width canvas) (height canvas) ::
  match truthy (bgColor p) with
  | Some c => [FillRect c 0 0 (width canvas) (height canvas)]
  | None => []
  end.

(** [renderRoutes], run until it returns, throws or first awaits.
    [canvas] is [None] when [canvasRef.current] or its 2D context is
    [null]. *)
Definition renderRoutes (p : Props) (canvas : option Canvas)
    (routesToRender : list Route) : CallStatus * list DrawOp :=
  match canvas with
  | None => (ReturnedNull, [])
  | Some cv =>
      let '(s, ops) := renderLoop p cv routesToRender in
      (s, paintBackground p cv ++ ops)
  end.

(** A frame callback of the call runs. *)
Definition onTick (p : Props) (canvas : Canvas) (s : CallStatus) (t : Tick)
    : CallStatus * list DrawOp :=
  match s with
  | Animating ws st rest =>
      match step p canvas ws st t with
      | Threw ops => (Stalled, ops)
      | Again st' ops => (Animating ws st' rest, ops)
      | Resolved ops =>
          let '(s', ops') := renderLoop p canvas rest in (s', ops ++ ops')
      end
  | _ => (s, [])
  end.

(** The call driven by a list of ticks, with everything it painted. *)
Fixpoint onTicks (p : Props) (canvas : Canvas) (s : CallStatus)
    (log : list DrawOp) (ts : list Tick) : CallStatus * list DrawOp :=
  match ts with
  | [] => (s, log)
  | t :: ts' =>
      let '(s', ops) := onTick p canvas s t in
      onTicks p canvas s' (log ++ ops) ts'
  end.

Definition render (p : Props) (canvas : option Canvas) (routesToRender : list Route)
    (ts : list Tick) : CallStatus * list DrawOp :=
  match canvas with
  | None => (ReturnedNull, [])
  | Some cv =>
      let '(s, ops) := renderRoutes p (Some cv) routesToRender in
      onTicks p cv s ops ts
  end.

(** ** The host: the canvas bitmap and the list of animation frame callbacks *)

(** A callback waiting for the next frame: the handle
    [requestAnimationFrame] returned for it, and the closure [step] of one
    call of [renderRoutes], that is the props that call closed over and
    where the call stands. *)
Record FrameCallback := mkFrameCallback {
  handle : Z;
  callProps : Props;
  callStatus : CallStatus
}.

(** [bitmap] lists what was painted since the canvas was last blank;
    [callbackId] is the window's animation frame callback identifier. *)
Record World := mkWorld {
  canvasEl : Canvas;
  bitmap : list DrawOp;
  frameCallbacks : list FrameCallback;
  callbackId : Z
}.

(** One frame: the [timestamp] every callback of the frame receives, and
    the clock reading of the [k]-th callback that runs in it. *)
Record Frame := mkFrame { frameTime : Q; clockAt : nat -> Q }.

(** Painting: clearing the whole canvas leaves a blank bitmap. *)
Definition paint (canvas : Canvas) (bm : list DrawOp) (op : DrawOp) : list DrawOp :=
  match op with
  | ClearRect x y w h =>
      if decide (x = 0 /\ y = 0 /\ w = width canvas /\ h = height canvas)%Z
      then [] else bm ++ [op]
  | _ => bm ++ [op]
  end.

Definition paintAll (canvas : Canvas) (bm : list DrawOp) (ops : list DrawOp)
    : list DrawOp :=
  foldl (paint canvas) bm ops.

(** [window.requestAnimationFrame]: the identifier is incremented and
    returned as the handle. *)
Definition requestAnimationFrame (p : Props) (s : CallStatus) (w : World) : World :=
  let h := (callbackId w + 1)%Z in
  {| canvasEl := canvasEl w;
     bitmap := bitmap w;
     frameCallbacks := frameCallbacks w ++ [mkFrameCallback h p s];
     callbackId := h |}.

(** [window.cancelAnimationFrame] on the list of callbacks. *)
Definition cancelAnimationFrame (h : Z) (cbs : list FrameCallback)
    : list FrameCallback :=
  List.filter (fun cb => negb (handle cb =? h)%Z) cbs.

(** A call of [renderRoutes] has painted [ops] and stands at [s]: the
    bitmap takes the strokes and a suspended call has one callback
    scheduled. *)
Definition settle (p : Props) (s : CallStatus) (ops : list DrawOp) (w : World)
    : World :=
  let w' := {| canvasEl := canvasEl w;
               bitmap := paintAll (canvasEl w) (bitmap w) ops;
               frameCallbacks := frameCallbacks w;
               callbackId := callbackId w |} in
  match s with
  | Animating _ _ _ => requestAnimationFrame p s w'
  | _ => w'
  end.

(** The callbacks of one frame run in the order they were scheduled; what
    they schedule waits for the next frame. *)
Fixpoint runCallbacks (f : Frame) (k : nat) (cbs : list FrameCallback) (w : World)
    : World :=
  match cbs with
  | [] => w
  | cb :: cbs' =>
      let '(s, ops) :=
        onTick (callProps cb) (canvasEl w) (callStatus cb)
               (mkTick (frameTime f) (clockAt f k)) in
      runCallbacks f (S k) cbs' (settle (callProps cb) s ops w)
  end.

Definition runFrame (w : World) (f : Frame) : World :=
  runCallbacks f 0 (frameCallbacks w)
    {| canvasEl := canvasEl w;
       bitmap := bitmap w;
       frameCallbacks := [];
       callbackId := callbackId w |}.

Definition runFrames (w : World) (fs : list Frame) : World := foldl runFrame w fs.

(** [for (var i = 1; i < 99999; i++) window.cancelAnimationFrame(i)],
    [count] iterations to go.  The component sets no timer, so the
    [clearInterval] of the same loop has nothing to clear. *)
Fixpoint cancelFrom (i : Z) (count : nat) (cbs : list FrameCallback)
    : list FrameCallback :=
  match count with
  | O => cbs
  | S k => cancelFrom (i + 1) k (cancelAnimationFrame i cbs)
  end.

Definition SWEEP_END : Z := 99999.

Definition cancelAllFrames (cbs : list FrameCallback) : list FrameCallback :=
  cancelFrom 1 (Z.to_nat (SWEEP_END - 1)) cbs.

(** The effect of [RouteMap], run after a commit that changed the props:
    the canvas has its new dimensions, the sweep runs, then
    [renderRoutes(routes)]. *)
Definition effect (p : Props) (canvas : Canvas) (routes : list Route) (w : World)
    : World :=
  let w' := {| canvasEl := canvas;
               bitmap := bitmap w;
               frameCallbacks := cancelAllFrames (frameCallbacks w);
               callbackId := callbackId w |} in
  let '(s, ops) := renderRoutes p (Some canvas) routes in
  settle p s ops w'.

(** A page in which [used] animation frames were requested before the
    component first rendered. *)
Definition page (canvas : Canvas) (used : Z) : World :=
  {| canvasEl := canvas; bitmap := []; frameCallbacks := []; callbackId := used |}.

(** ** What a finished render is expected to have painted *)

(** The segments of a track in waypoint order: one stroke for each pair of
    neighbours. *)
Fixpoint segments (p : Props) (canvas : Canvas) (ws : list Waypoint) : list DrawOp :=
  match ws with
  | a :: (b :: _) as tl => strokeBetween p canvas a b :: segments p canvas tl
  | _ => []
  end.

(** The segments of all tracks, track after track in the order given. *)
Definition allSegments (p : Props) (canvas : Canvas) (routesToRender : list Route)
    : list DrawOp :=
  concat (map (fun r => segments p canvas (waypointsToRender p r)) routesToRender).

(** The same props with another [duration]. *)
Definition withDuration (d : Q) (p : Props) : Props :=
  {| geoBounds := geoBounds p;
     pathResolution := pathResolution p;
     duration := d;
     thickness := thickness p;
     mapResolution := mapResolution p;
     bgColor := bgColor p;
     pathColor := pathColor p |}.

(** What a render of [routesToRender] has painted once it is fulfilled. *)
Definition finalPicture (p : Props) (canvas : Canvas) (routesToRender : list Route)
    : list DrawOp :=
  paintBackground p canvas ++ allSegments p canvas routesToRender.

(** How far a call has come, against the picture [full] it is heading
    for: [log] is what it has painted. *)
Definition consistent (p : Props) (canvas : Canvas) (full : list DrawOp)
    (s : CallStatus) (log : list DrawOp) : Prop :=
  match s with
  | Animating ws st rest =>
      (1 <= waypointIndex st)%nat
      /\ full = log ++ drop (waypointIndex st - 1) (segments p canvas ws)
                    ++ allSegments p canvas rest
  | Fulfilled => full = log
  | _ => log `prefix_of` full
  end.


Definition notRejected (s : CallStatus) : Prop :=
  match s with
  | Rejected _ => False
  | _ => True
  end.

(** Two worlds that differ at most in the handles given out. *)
Definition sameClosure (a b : FrameCallback) : Prop :=
  callProps a = callProps b /\ callStatus a = callStatus b.

Definition similar (w w' : World) : Prop :=
  canvasEl w = canvasEl w'
  /\ bitmap w = bitmap w'
  /\ Forall2 sameClosure (frameCallbacks w) (frameCallbacks w').

(** The handles the sweep of the effect reaches. *)
Definition swept (h : Z) : bool := (1 <=? h)%Z && (h <? SWEEP_END)%Z.

(** A scenario for the re-render: a first animated render of track [A]
    is superseded, before its first frame, by a render of track [B]. *)
Module Scenario.

Definition bounds : GeoBounds := mkGeoBounds (-10) 10 10 (-10).
Definition canvas : Canvas := mkCanvas 100 100.
Definition first : Props := defaultProps bounds.
Definition second : Props := mkProps bounds 1 0 1 5000 None "red".
Definition A : Route :=
  mkRoute 1 "A" 0 "Ride" [mkCoords 0 0; mkCoords 5 5; mkCoords 10 10].
Definition B : Route :=
  mkRoute 2 "B" 0 "Run" [mkCoords 0 0; mkCoords (-5) 5].
Definition frames : list Frame :=
  [mkFrame 16 (fun _ => 17); mkFrame 1000 (fun _ => 1001)].

(** The page had requested [used] animation frames before. *)
Definition superseded (used : Z) : World :=
  runFrames (effect second canvas [B] (effect first canvas [A] (page canvas used)))
    frames.

Definition uninterrupted : World :=
  runFrames (effect second canvas [B] (page canvas 0)) frames.

End Scenario.

(** ** The customizer (src/components/CanvasCustomizer.tsx) *)

(** [toTimestamp]: the time value of [new Date(d)] in seconds.  The
    argument is that time value in milliseconds, [None] for an invalid date,
    whose time value is [NaN]. *)
Definition toTimestamp (d : option Z) : option Q :=
  (fun ms => inject_Z ms / 1000) <$> d.

(** [a > b] and [a < b] on numbers that may be [NaN]: false as soon as
    one side is. *)
Definition gtNumber (a b : option Q) : bool :=
  match a, b with
  | Some x, Some y => negb (Qle_bool x y)
  | _, _ => false
  end.

Definition ltNumber (a b : option Q) : bool := gtNumber b a.

(** What the filter of [routesToRender] reads of the form values: the two
    dates as the time values [new Date] gives for them, the checked activity
    types, the switch and the four bounds ([VisualizationOptions] extends
    [GeoBounds]). *)
Record FilterValues := mkFilterValues {
  valuesStartDate : option Z;
  valuesEndDate : option Z;
  activityTypes : list string;
  useCustomCoords : bool;
  valuesBounds : GeoBounds
}.

(** The callback of [route.waypoints.some]: strictly inside the bounds. *)
Definition waypointInside (values : FilterValues) (waypoint : Waypoint) : bool :=
  negb (Qle_bool (lat waypoint) (lowerLat (valuesBounds values)))
  && negb (Qle_bool (upperLat (valuesBounds values)) (lat waypoint))
  && negb (Qle_bool (lon waypoint) (leftLon (valuesBounds values)))
  && negb (Qle_bool (rightLon (valuesBounds values)) (lon waypoint)).

(** The callback of [routes.filter]. *)
Definition keepRoute (values : FilterValues) (route : Route) : bool :=
  gtNumber (toTimestamp (Some (startDate route))) (toTimestamp (valuesStartDate values))
  && ltNumber (toTimestamp (Some (startDate route))) (toTimestamp (valuesEndDate values))
  && bool_decide (activityType route ∈ activityTypes values)
  && (negb (useCustomCoords values)
      || existsb (waypointInside values) (waypoints route)).

Definition routesToRender (values : FilterValues) (routes : list Route) : list Route :=
  List.filter (keepRoute values) routes.

(** [arr.indexOf(item)]: the first index of [item], or -1. *)
Fixpoint indexOfFrom (item : string) (i : nat) (arr : list string) : Z :=
  match arr with
  | [] => (-1)%Z
  | a :: arr' => if String.eqb a item then Z.of_nat i else indexOfFrom item (S i) arr'
  end.

Definition indexOf (arr : list string) (item : string) : Z := indexOfFrom item 0 arr.

(** What the customizer reads of a [SummaryActivity] here. *)
Record SummaryActivity := mkSummaryActivity { summaryType : string }.

Record TypeOption := mkTypeOption { optionValue : string; optionLabel : string }.

(** [getActivityTypeLabel]; the table [activityTypeEmojis] is not part of
    these sources and is taken as the function that reads it. *)
Definition getActivityTypeLabel (activityTypeEmojis : string -> string)
    (activityType : string) : string :=
  activityTypeEmojis activityType +:+ " " +:+ activityType.

(** [activityTypeOptions]: the types of the activities, each kept at its
    first occurrence, with their labels. *)
Definition activityTypeOptions (activityTypeEmojis : string -> string)
    (activities : list SummaryActivity) : list TypeOption :=
  let types := map summaryType activities in
  map (fun item => mkTypeOption item (getActivityTypeLabel activityTypeEmojis item))
      (arrayFilter (fun item index => (indexOf types item =? Z.of_nat index)%Z) types).

(** The key of [memoizedGeoBounds]: the four numbers joined by ["-"].
    [numberToString] is the conversion [Array.prototype.join] applies to a
    number. *)
Definition boundsKey (numberToString : Q -> string) (bounds : GeoBounds) : string :=
  String.concat "-"
    (map numberToString
       [leftLon bounds; rightLon bounds; upperLat bounds; lowerLat bounds]).

(** [memoizedGeoBounds] with the module-wide table [geoBoundsMemo] passed
    in and out: the object returned and the table afterwards. *)
Definition memoizedGeoBounds (numberToString : Q -> string)
    (geoBoundsMemo : gmap string GeoBounds) (bounds : GeoBounds)
    : GeoBounds * gmap string GeoBounds :=
  let key := boundsKey numberToString bounds in
  match geoBoundsMemo !! key with
  | Some stored => (stored, geoBoundsMemo)
  | None => (bounds, <[key := bounds]> geoBoundsMemo)
  end.

(** A series of calls, each on the table the previous one left: the
    objects returned, in order, and the last table. *)
Fixpoint memoizedCalls (numberToString : Q -> string)
    (geoBoundsMemo : gmap string GeoBounds) (calls : list GeoBounds)
    : list GeoBounds * gmap string GeoBounds :=
  match calls with
  | [] => ([], geoBoundsMemo)
  | bounds :: calls' =>
      let '(r, memo') := memoizedGeoBounds numberToString geoBoundsMemo bounds in
      let '(rs, memo'') := memoizedCalls numberToString memo' calls' in
      (r :: rs, memo'')
  end.

(** * The numeric kernels on binary64

    The same functions of [RouteMap.tsx] with a JavaScript [number] as what
    it is, an IEEE 754 binary64 value: [float] and its operations are the
    kernel's, rounding to nearest after each of them.  What [Math.round] and
    [Math.ceil] return is integral or not finite, and is kept exactly. *)
Module Double.

Local Open Scope float_scope.
Local Set Warnings "-inexact-float".

(** An integral result of [Math.round] or [Math.ceil], or what they return
    on an argument that is not finite. *)
Inductive Integral :=
| Int (z : Z)
| PlusInfinity
| MinusInfinity
| NotANumber.

(** The rational a finite double stands for, in lowest terms. *)
Definition exact (x : float) : option Q :=
  match Prim2SF x with
  | S754_zero _ => Some 0%Q
  | S754_finite s m e =>
      Some (Qred ((if s then -1 else 1) * inject_Z (Zpos m) * Qpower 2 e))%Q
  | _ => None
  end.

Definition integralOf (rounding : Q -> Z) (x : float) : Integral :=
  match Prim2SF x with
  | S754_nan => NotANumber
  | S754_infinity s => if s then MinusInfinity else PlusInfinity
  | S754_zero _ => Int 0
  | S754_finite s m e =>
      Int (rounding ((if s then -1 else 1) * inject_Z (Zpos m) * Qpower 2 e)%Q)
  end.

(** [Math.round]: the nearest integer, a tie going up. *)
Definition round (x : float) : Integral := integralOf (fun q => Qfloor (q + (1 # 2))) x.

(** [Math.ceil]. *)
Definition ceil (x : float) : Integral := integralOf Qceiling x.

(** The double of a non-negative integer below 2^53, such as an array
    length or a canvas dimension. *)
Definition ofInt (z : Z) : float := PrimFloat.of_uint63 (Uint63.of_Z z).

Record Coords := mkCoords { lat : float; lon : float }.
Record NormPoint := mkNormPoint { nx : float; ny : float }.
Record Pixel := mkPixel { px : Integral; py : Integral }.
Record GeoBounds := mkGeoBounds {
  leftLon : float;
  rightLon : float;
  upperLat : float;
  lowerLat : float
}.
Record Canvas := mkCanvas { width : Z; height : Z }.

Definition normalizeLat (lat : float) : float := 90 - lat.
Definition normalizeLon (lon : float) : float := 180 + lon.

Definition normalizeCoordinates (c : Coords) : NormPoint :=
  {| nx := normalizeLon (lon c); ny := normalizeLat (lat c) |}.

Definition coordinatesToBoundedCanvasPoint
    (c : Coords) (canvas : Canvas) (geoBounds : GeoBounds) : Pixel :=
  let normalizedCoords := normalizeCoordinates c in
  let normalizedMinX := normalizeLon (leftLon geoBounds) in
  let normalizedMaxX := normalizeLon (rightLon geoBounds) in
  let normalizedMinY := normalizeLat (upperLat geoBounds) in
  let normalizedMaxY := normalizeLat (lowerLat geoBounds) in
  let xRange := normalizedMaxX - normalizedMinX in
  let yRange := normalizedMaxY - normalizedMinY in
  let xRelativeToBounds := (nx normalizedCoords - normalizedMinX) / xRange in
  let yRelativeToBounds := (ny normalizedCoords - normalizedMinY) / yRange in
  {| px := round (xRelativeToBounds * ofInt (width canvas));
     py := round (yRelativeToBounds * ofInt (height canvas)) |}.

(** ** Routes, props and strokes *)

Abbreviation Waypoint := Coords.

Record Route := mkRoute {
  routeId : Z;
  routeName : string;
  startDate : Z;
  activityType : string;
  waypoints : list Waypoint
}.

Record Props := mkProps {
  geoBounds : GeoBounds;
  pathResolution : float;
  duration : float;
  thickness : float;
  mapResolution : float;
  bgColor : option string;
  pathColor : string
}.

(** The defaults of the parameter list. *)
Definition defaultProps (b : GeoBounds) : Props :=
  {| geoBounds := b;
     pathResolution := 1;
     duration := 750;
     thickness := 1;
     mapResolution := 5000;
     bgColor := None;
     pathColor := "rgb(0,0,0,0.25)" |}.

Inductive DrawOp :=
| ClearRect (x y w h : Z)
| FillRect (fillStyle : string) (x y w h : Z)
| StrokeLine (lineWidth : float) (strokeStyle : string) (from to : Pixel).

Definition strokeBetween (p : Props) (canvas : Canvas) (f t : Coords) : DrawOp :=
  StrokeLine (thickness p) (pathColor p)
    (coordinatesToBoundedCanvasPoint f canvas (geoBounds p))
    (coordinatesToBoundedCanvasPoint t canvas (geoBounds p)).

(** [addPath]; an [undefined] argument throws before anything is painted:
    [None]. *)
Definition addPath (p : Props) (canvas : Canvas) (from to : option Coords)
    : option DrawOp :=
  f ← from;
  t ← to;
  Some (strokeBetween p canvas f t).

(** ** Validation and decimation *)

(** [pathResolution <= 0 || pathResolution > 1]: both comparisons are false
    on [NaN]. *)
Definition invalidResolution (r : float) : bool := (r <=? 0) || (1 <? r).

Definition renderEveryNthPoint (pathResolution : float) : Integral :=
  ceil (1 / pathResolution).

(** [i % every === 0] for an index [i]: the remainder of a division by 0
    is [NaN], that of a division by an infinity is [i] itself. *)
Definition remainderIsZero (every : Integral) (i : nat) : bool :=
  match every with
  | Int z => if (z =? 0)%Z then false else (Z.rem (Z.of_nat i) z =? 0)%Z
  | PlusInfinity | MinusInfinity => (Z.of_nat i =? 0)%Z
  | NotANumber => false
  end.

(** The callback of the filter. *)
Definition keepWaypoint (len : nat) (every : Integral) (i : nat) : bool :=
  (Z.of_nat i =? 0)%Z
  || remainderIsZero every i
  || (Z.of_nat i =? Z.of_nat len - 1)%Z.

Definition decimate (every : Integral) (ws : list Waypoint) : list Waypoint :=
  arrayFilter (fun _ i => keepWaypoint (length ws) every i) ws.

Definition waypointsToRender (p : Props) (route : Route) : list Waypoint :=
  decimate (renderEveryNthPoint (pathResolution p)) (waypoints route).

(** The indices the filter keeps, in increasing order. *)
Definition keptIndices (every : Integral) (len : nat) : list nat :=
  List.filter (keepWaypoint len every) (seq 0 len).

(** ** The synchronous loop and the frame callback *)

Definition drawAll (p : Props) (canvas : Canvas) (ws : list Waypoint)
    : option (list DrawOp) :=
  mapM (fun i : nat =>
          addPath p canvas (arrayAt ws (Z.of_nat i - 1)) (arrayAt ws (Z.of_nat i)))
       (seq 1 (length ws - 1)).

Record AnimState := mkAnim {
  waypointIndex : nat;
  lastPointAddedAtTime : option float
}.

Record Tick := mkTick { timestamp : float; now : float }.

Definition delay (p : Props) (ws : list Waypoint) : float :=
  (duration p / ofInt (Z.of_nat (length ws))) * 0.8.

Definition initialAnim : AnimState :=
  {| waypointIndex := 1; lastPointAddedAtTime := None |}.

(** The body of a callback up to its last [if]: it ran to that point, it
    threw, or its inner loop never ends (a count of [Infinity]). *)
Inductive Body :=
| Ran (st : AnimState) (ops : list DrawOp)
| Raised (ops : list DrawOp)
| Spins (st : AnimState) (ops : list DrawOp).

(** The inner [for] loop, [iters] iterations to go. *)
Fixpoint catchUp (p : Props) (canvas : Canvas) (ws : list Waypoint) (t : Tick)
    (iters : nat) (st : AnimState) (ops : list DrawOp) : Body :=
  match iters with
  | O => Ran st ops
  | S k =>
      match ws !! waypointIndex st with
      | None => catchUp p canvas ws t k st ops
      | Some wp =>
          match addPath p canvas
                  (arrayAt ws (Z.of_nat (waypointIndex st) - 1)) (Some wp) with
          | None => Raised ops
          | Some op =>
              catchUp p canvas ws t k
                {| waypointIndex := waypointIndex st + 1;
                   lastPointAddedAtTime := Some (now t) |}
                (ops ++ [op])
          end
      end
  end.

Definition stepBody (p : Props) (canvas : Canvas) (ws : list Waypoint)
    (st : AnimState) (t : Tick) : Body :=
  match lastPointAddedAtTime st with
  | None =>
      match addPath p canvas
              (arrayAt ws (Z.of_nat (waypointIndex st) - 1))
              (arrayAt ws (Z.of_nat (waypointIndex st))) with
      | None => Raised []
      | Some op =>
          Ran {| waypointIndex := waypointIndex st + 1;
                 lastPointAddedAtTime := Some (now t) |} [op]
      end
  | Some last =>
      let timeDiff := timestamp t - last in
      if delay p ws <=? timeDiff then
        match ceil (timeDiff / delay p ws) with
        | Int numPointsToRenderThisFrame =>
            catchUp p canvas ws t (Z.to_nat numPointsToRenderThisFrame) st []
        | PlusInfinity =>
            match catchUp p canvas ws t (length ws) st [] with
            | Ran st' ops => Spins st' ops
            | other => other
            end
        | MinusInfinity | NotANumber => Ran st []
        end
      else Ran st []
  end.

(** ** The first pass of [renderRoutes] *)

Inductive RenderError :=
| InvalidPathResolution (r : float)
| TypeError.

(** Where the call stands when it first gives control back: it returned
    or threw, or it awaits the animation of a track. *)
Inductive CallStatus :=
| ReturnedNull
| Rejected (e : RenderError)
| Fulfilled
| Awaiting (ws : list Waypoint) (rest : list Route).

Fixpoint renderLoop (p : Props) (canvas : Canvas) (routesToRender : list Route)
    : CallStatus * list DrawOp :=
  match routesToRender with
  | [] => (Fulfilled, [])
  | route :: rest =>
      if invalidResolution (pathResolution p)
      then (Rejected (InvalidPathResolution (pathResolution p)), [])
      else
        let ws := waypointsToRender p route in
        if PrimFloat.eqb (duration p) 0 then
          match drawAll p canvas ws with
          | None => (Rejected TypeError, [])
          | Some ops =>
              let '(s, ops') := renderLoop p canvas rest in (s, ops ++ ops')
          end
        else (Awaiting ws rest, [])
  end.

Definition paintBackground (p : Props) (canvas : Canvas) : list DrawOp :=
  ClearRect 0 0 (width canvas) (height canvas) ::
  match truthy (bgColor p) with
  | Some c => [FillRect c 0 0 (width canvas) (height canvas)]
  | None => []
  end.

Definition renderRoutes (p : Props) (canvas : option Canvas)
    (routesToRender : list Route) : CallStatus * list DrawOp :=
  match canvas with
  | None => (ReturnedNull, [])
  | Some cv =>
      let '(s, ops) := renderLoop p cv routesToRender in
      (s, paintBackground p cv ++ ops)
  end.

(** The segments of a track in waypoint order, and those of all tracks. *)
Fixpoint segments (p : Props) (canvas : Canvas) (ws : list Waypoint) : list DrawOp :=
  match ws with
  | a :: (b :: _) as tl => strokeBetween p canvas a b :: segments p canvas tl
  | _ => []
  end.

Definition allSegments (p : Props) (canvas : Canvas) (routesToRender : list Route)
    : list DrawOp :=
  concat (map (fun r => segments p canvas (waypointsToRender p r)) routesToRender).


End Double.

(** The rationals that the doubles of a coordinate and of a window stand
    for, when they are finite. *)
Definition exactCoords (c : Double.Coords) : option Coords :=
  la ← Double.exact (Double.lat c);
  lo ← Double.exact (Double.lon c);
  Some (mkCoords la lo).

Definition exactBounds (b : Double.GeoBounds) : option GeoBounds :=
  l ← Double.exact (Double.leftLon b);
  r ← Double.exact (Double.rightLon b);
  u ← Double.exact (Double.upperLat b);
  d ← Double.exact (Double.lowerLat b);
  Some (mkGeoBounds l r u d).

(** Case analysis on every integer test of a boolean goal. *)
Ltac decide_Z_tests :=
  repeat match goal with
    | |- context [(?a =? ?b)%Z] => destruct (Z.eqb_spec a b)
    | |- context [(?a <=? ?b)%Z] => destruct (Z.leb_spec a b)
    | |- context [(?a <? ?b)%Z] => destruct (Z.ltb_spec a b)
    end;
  simpl; try reflexivity; try lia.

(** * Properties *)

(** ** Worked examples *)

Example round_tie_up : JsMath.round (5 # 2) = 3%Z /\ JsMath.round (-5 # 2) = (-2)%Z.
Proof. split; reflexivity. Qed.

(** A tenth of the resolution keeps every tenth waypoint and the two
    ends. *)
Example kept_at_one_tenth :
  keptIndices (renderEveryNthPoint 0.1) 25 = [0; 10; 20; 24]%nat.
Proof. reflexivity. Qed.

(** A point outside the window is projected outside the canvas, without
    clamping. *)
Example project_outside :
  coordinatesToBoundedCanvasPoint (mkCoords 20 (-30)) (mkCanvas 100 100)
    (mkGeoBounds (-10) 10 10 (-10)) = mkPixel (-100) (-50).
Proof. reflexivity. Qed.

(** The default animation of a track of five waypoints: the first frame
    paints one segment, a frame 100 ms later is too early (the delay is 120
    ms), a frame 300 ms later catches up with three segments and
    resolves. *)
Example animation_run :
  let p := defaultProps (mkGeoBounds (-10) 10 10 (-10)) in
  let canvas := mkCanvas 100 100 in
  let ws := [mkCoords 0 0; mkCoords 1 1; mkCoords 2 2; mkCoords 3 3; mkCoords 4 4] in
  let segs := segments p canvas ws in
  step p canvas ws initialAnim (mkTick 16 17)
  = Again (mkAnim 2 (Some 17)) (take 1 segs)
  /\ step p canvas ws (mkAnim 2 (Some 17)) (mkTick 117 118)
     = Again (mkAnim 2 (Some 17)) []
  /\ step p canvas ws (mkAnim 2 (Some 17)) (mkTick 317 318)
     = Resolved (drop 1 segs).
Proof. repeat split. Qed.

(** ** Arithmetic of [Math.ceil] and of the decimation step *)
Section CeilFacts.

Lemma Qle_bool_false (a b : Q) : Qle_bool a b = false <-> b < a.
Proof.
  split; intros H.
  - apply Qnot_le_lt. intros Hle. apply Qle_bool_iff in Hle. congruence.
  - destruct (Qle_bool a b) eqn:E; [|reflexivity].
    apply Qle_bool_iff in E. exfalso. eapply Qlt_not_le; eassumption.
Qed.

Lemma invalidResolution_false (r : Q) :
  invalidResolution r = false <-> 0 < r /\ r <= 1.
Proof.
  unfold invalidResolution. rewrite orb_false_iff, negb_false_iff.
  rewrite Qle_bool_false, Qle_bool_iff. tauto.
Qed.

Lemma invalidResolution_true (r : Q) :
  invalidResolution r = true <-> r <= 0 \/ 1 < r.
Proof.
  unfold invalidResolution. rewrite orb_true_iff, negb_true_iff.
  rewrite Qle_bool_false, Qle_bool_iff. tauto.
Qed.



End CeilFacts.

(** ** Decimation *)
Section Decimation.

Context {A : Type}.
Implicit Types (g : nat -> bool) (l : list A).

Lemma filterFrom_length g i l :
  length (filterFrom (fun _ j => g j) i l)
  = length (List.filter g (seq i (length l))).
Proof.
  revert i. induction l as [|a l IH]; intros i; simpl; [reflexivity|].
  destruct (g i); simpl; now rewrite IH.
Qed.

Lemma omap_lookup_shift (a : A) l i (js : list nat) :
  Forall (fun j => S i <= j)%nat js ->
  omap (fun j => (a :: l) !! (j - i)%nat) js
  = omap (fun j => l !! (j - S i)%nat) js.
Proof.
  induction 1 as [|j js Hj _ IH]; [reflexivity|].
  cbn [omap list_omap]. rewrite IH.
  replace (j - i)%nat with (S (j - S i)) by lia. reflexivity.
Qed.

(** The filter keeps the elements at the indices its callback accepts. *)
Lemma filterFrom_omap g i l :
  filterFrom (fun _ j => g j) i l
  = omap (fun j => l !! (j - i)%nat) (List.filter g (seq i (length l))).
Proof.
  revert i. induction l as [|a l IH]; intros i; simpl; [reflexivity|].
  assert (Hge : Forall (fun j => S i <= j)%nat (List.filter g (seq (S i) (length l)))).
  { apply Forall_forall. intros j Hj. apply list_elem_of_In, filter_In in Hj.
    destruct Hj as [Hj _]. apply in_seq in Hj. lia. }
  destruct (g i); simpl.
  - rewrite Nat.sub_diag. simpl. rewrite omap_lookup_shift by exact Hge.
    now rewrite IH.
  - rewrite omap_lookup_shift by exact Hge. apply IH.
Qed.

Lemma filterFrom_app (f : A -> nat -> bool) i l1 l2 :
  filterFrom f i (l1 ++ l2)
  = filterFrom f i l1 ++ filterFrom f (i + length l1) l2.
Proof.
  revert i. induction l1 as [|a l1 IH]; intros i; simpl.
  - now rewrite Nat.add_0_r.
  - rewrite IH, Nat.add_succ_r. now destruct (f a i).
Qed.

(** An accepted last element stays the last element. *)
Lemma filterFrom_last g i l :
  l <> [] -> g (i + length l - 1)%nat = true ->
  last (filterFrom (fun _ j => g j) i l) = last l.
Proof.
  intros Hne Hg.
  destruct (exists_last Hne) as (l' & x & ->).
  rewrite length_app in Hg. simpl in Hg.
  replace (i + (length l' + 1) - 1)%nat with (i + length l')%nat in Hg by lia.
  rewrite filterFrom_app. simpl. rewrite Hg. now rewrite !last_snoc.
Qed.

End Decimation.

Section DecimationCount.

Variable every : Z.
Hypothesis every_pos : (1 <= every)%Z.

(** There are [ceil (m / every)] multiples of [every] below [m]. *)
Lemma count_multiples (m : nat) :
  Z.of_nat (length (List.filter (isMultipleOf every) (seq 0 m)))
  = ((Z.of_nat m + every - 1) / every)%Z.
Proof.
  induction m as [|m IH].
  - simpl. symmetry. apply Z.div_small. lia.
  - rewrite seq_S, List.filter_app, length_app, Nat2Z.inj_add, IH.
    simpl. unfold isMultipleOf. rewrite Z.rem_mod_nonneg by lia.
    pose proof (Z.div_mod (Z.of_nat m) every ltac:(lia)) as Hdm.
    pose proof (Z.mod_pos_bound (Z.of_nat m) every ltac:(lia)) as Hb.
    set (q := (Z.of_nat m / every)%Z) in *.
    set (r := (Z.of_nat m mod every)%Z) in *.
    replace (Z.of_nat (S m) + every - 1)%Z with (r + (q + 1) * every)%Z by lia.
    rewrite Z.div_add by lia. rewrite (Z.div_small r) by lia.
    destruct (Z.eqb_spec r 0) as [Hr|Hr]; simpl length.
    + replace (Z.of_nat m + every - 1)%Z with ((every - 1) + q * every)%Z by lia.
      rewrite Z.div_add by lia. rewrite Z.div_small by lia. lia.
    + replace (Z.of_nat m + every - 1)%Z with ((r - 1) + (q + 1) * every)%Z by lia.
      rewrite Z.div_add by lia. rewrite Z.div_small by lia. lia.
Qed.

(** Below the last index the callback of the filter is the test for a
    multiple. *)
Lemma keepWaypoint_inner (len i : nat) :
  (S i < len)%nat -> keepWaypoint len every i = isMultipleOf every i.
Proof.
  intros Hi. unfold keepWaypoint, isMultipleOf.
  destruct (Z.eqb_spec (Z.of_nat i) (Z.of_nat len - 1)) as [E|_]; [lia|].
  rewrite orb_false_r.
  destruct (Z.eqb_spec (Z.of_nat i) 0) as [E|_]; [|reflexivity].
  rewrite E. reflexivity.
Qed.

Lemma keepWaypoint_last (len : nat) : keepWaypoint (S len) every len = true.
Proof.
  unfold keepWaypoint.
  destruct (Z.eqb_spec (Z.of_nat len) (Z.of_nat (S len) - 1)) as [_|E]; [|lia].
  now rewrite orb_true_r.
Qed.

Lemma keptIndices_snoc (m : nat) :
  keptIndices every (S m) = List.filter (isMultipleOf every) (seq 0 m) ++ [m].
Proof.
  unfold keptIndices. rewrite seq_S, List.filter_app. simpl.
  rewrite keepWaypoint_last. f_equal.
  apply List.filter_ext_in. intros i Hi. apply in_seq in Hi.
  apply keepWaypoint_inner. lia.
Qed.

Lemma keptIndices_length (len : nat) :
  Z.of_nat (length (keptIndices every len))
  = match len with
    | O => 0%Z
    | S m => (1 + (Z.of_nat m + every - 1) / every)%Z
    end.
Proof.
  destruct len as [|m]; [reflexivity|].
  rewrite keptIndices_snoc, length_app, Nat2Z.inj_add, count_multiples.
  simpl. lia.
Qed.

End DecimationCount.

Lemma decimate_length (every : Z) (ws : list Waypoint) :
  length (decimate every ws) = length (keptIndices every (length ws)).
Proof. unfold decimate, arrayFilter, keptIndices. apply filterFrom_length. Qed.

Lemma decimate_kept (every : Z) (ws : list Waypoint) :
  decimate every ws = omap (fun i => ws !! i) (keptIndices every (length ws)).
Proof.
  unfold decimate, arrayFilter, keptIndices.
  rewrite (filterFrom_omap (keepWaypoint (length ws) every)).
  apply list_omap_ext, Forall2_same_length_lookup_2; [reflexivity|].
  intros i j k Hj Hk. rewrite Hj in Hk. injection Hk as <-.
  now rewrite Nat.sub_0_r.
Qed.


Lemma keptIndices_spec (every : Z) (len i : nat) :
  (1 <= every)%Z ->
  In i (keptIndices every len)
  <-> (i < len)%nat
      /\ (i = 0%nat \/ (every | Z.of_nat i)%Z \/ i = (len - 1)%nat).
Proof.
  intros He. unfold keptIndices. rewrite filter_In, in_seq.
  unfold keepWaypoint, isMultipleOf.
  rewrite !orb_true_iff, !Z.eqb_eq, (Z.rem_divide _ every) by lia.
  split; intros [Hi H]; (split; [lia|]).
  - destruct H as [[H|H]|H]; [left; lia|right; left; exact H|right; right; lia].
  - destruct H as [H|[H|H]]; [left; left; lia|left; right; exact H|right; lia].
Qed.



(** ** Projection and sizing *)

(** With non-degenerate bounds both ranges are positive, and the
    normalisation cancels: the fractions are those of the raw degrees. *)
Lemma projection_fractions (c : Coords) (b : GeoBounds) :
  nondegenerate b ->
  0 < normalizeLon (rightLon b) - normalizeLon (leftLon b)
  /\ 0 < normalizeLat (lowerLat b) - normalizeLat (upperLat b)
  /\ ProjectionSpec.xFrac c b == (lon c - leftLon b) / (rightLon b - leftLon b)
  /\ ProjectionSpec.yFrac c b == (upperLat b - lat c) / (upperLat b - lowerLat b).
Proof.
  intros [Hx Hy]. unfold normalizeLon, normalizeLat, ProjectionSpec.xFrac,
    ProjectionSpec.yFrac.
  repeat split; try lra.
  - assert (E1 : 180 + lon c - (180 + leftLon b) == lon c - leftLon b) by ring.
    assert (E2 : 180 + rightLon b - (180 + leftLon b) == rightLon b - leftLon b) by ring.
    now rewrite E1, E2.
  - assert (E1 : 90 - lat c - (90 - upperLat b) == upperLat b - lat c) by ring.
    assert (E2 : 90 - lowerLat b - (90 - upperLat b) == upperLat b - lowerLat b) by ring.
    now rewrite E1, E2.
Qed.

(** C7.  Surface sizing: the width is the smaller of the width in degrees
    times the pixels per degree and 20000, the height is that width divided
    by the aspect ratio, and the width never exceeds 20000 whatever the
    bounds and the pixels per degree are. *)
Theorem surface_sizing :
  (forall (b : GeoBounds) (pixelsPerDegree : Q),
      effectiveWidth (surfaceSize b pixelsPerDegree) <= 20000)
  /\ forall (b : GeoBounds) (pixelsPerDegree : Q),
       leftLon b < rightLon b -> lowerLat b < upperLat b ->
       effectiveWidth (surfaceSize b pixelsPerDegree)
       = Qmin (Qabs (leftLon b - rightLon b) * pixelsPerDegree) 20000
       /\ effectiveHeight (surfaceSize b pixelsPerDegree)
          = effectiveWidth (surfaceSize b pixelsPerDegree)
            / (Qabs (leftLon b - rightLon b) / Qabs (upperLat b - lowerLat b))
       /\ effectiveWidth (surfaceSize b pixelsPerDegree)
          = SizingSpec.width b pixelsPerDegree 20000
       /\ effectiveHeight (surfaceSize b pixelsPerDegree)
          = SizingSpec.height b pixelsPerDegree 20000.
Proof.
  split.
  - intros b ppd. unfold surfaceSize, JsMath.min, MAX_WIDTH. simpl.
    apply Q.le_min_r.
  - intros b ppd _ _. repeat split.
Qed.

Lemma surface_sizing_witness :
  let b := mkGeoBounds (-180) 180 90 (-90) in
  (leftLon b < rightLon b /\ lowerLat b < upperLat b)
  /\ effectiveWidth (surfaceSize b 5000) == 20000
  /\ effectiveHeight (surfaceSize b 5000) == 10000.
Proof.
  intros b. split; [split; reflexivity|].
  destruct surface_sizing as (_ & H).
  destruct (H b 5000) as (-> & -> & _); [reflexivity..|].
  split; reflexivity.
Defined.


(** ** The strokes of one track *)
Section Strokes.

Variables (p : Props) (canvas : Canvas).

Lemma segments_length (ws : list Waypoint) :
  length (segments p canvas ws) = (length ws - 1)%nat.
Proof.
  induction ws as [|a [|b ws] IH]; [reflexivity..|].
  change (segments p canvas (a :: b :: ws))
    with (strokeBetween p canvas a b :: segments p canvas (b :: ws)).
  simpl length in *. lia.
Qed.

Lemma segments_lookup (ws : list Waypoint) (i : nat) (a b : Waypoint) :
  ws !! i = Some a -> ws !! S i = Some b ->
  segments p canvas ws !! i = Some (strokeBetween p canvas a b).
Proof.
  revert i. induction ws as [|x [|y ws] IH]; intros i Ha Hb; [discriminate| |].
  - destruct i; discriminate.
  - change (segments p canvas (x :: y :: ws))
      with (strokeBetween p canvas x y :: segments p canvas (y :: ws)).
    destruct i as [|i].
    + simpl in *. congruence.
    + apply (IH i); assumption.
Qed.

Lemma arrayAt_nat {A} (l : list A) (i : nat) : arrayAt l (Z.of_nat i) = l !! i.
Proof.
  unfold arrayAt. destruct (Z.ltb_spec (Z.of_nat i) 0); [lia|].
  now rewrite Nat2Z.id.
Qed.

Lemma arrayAt_pred {A} (l : list A) (i : nat) :
  arrayAt l (Z.of_nat (S i) - 1) = l !! i.
Proof.
  replace (Z.of_nat (S i) - 1)%Z with (Z.of_nat i) by lia. apply arrayAt_nat.
Qed.

(** The call [addPath(waypoints[i - 1], waypoints[i], context)] paints
    segment [i - 1] when [i] is a valid index other than 0. *)
Lemma addPath_segment (ws : list Waypoint) (i : nat) :
  (S i < length ws)%nat ->
  exists op,
    segments p canvas ws !! i = Some op
    /\ addPath p canvas (arrayAt ws (Z.of_nat (S i) - 1)) (arrayAt ws (Z.of_nat (S i)))
       = Some op.
Proof.
  intros Hi.
  destruct (lookup_lt_is_Some_2 ws i ltac:(lia)) as [a Ha].
  destruct (lookup_lt_is_Some_2 ws (S i) Hi) as [b Hb].
  exists (strokeBetween p canvas a b). split.
  - now apply segments_lookup.
  - rewrite arrayAt_pred, arrayAt_nat, Ha, Hb. reflexivity.
Qed.

(** The synchronous loop never throws and paints the segments in
    waypoint order. *)
Lemma drawAll_segments (ws : list Waypoint) :
  drawAll p canvas ws = Some (segments p canvas ws).
Proof.
  unfold drawAll. apply mapM_Some, Forall2_same_length_lookup_2.
  - now rewrite length_seq, segments_length.
  - intros i j op Hj Hop.
    apply lookup_seq in Hj as [-> Hi].
    destruct (addPath_segment ws i ltac:(lia)) as (op' & Hop' & Hadd).
    change (1 + i)%nat with (S i). rewrite Hadd. congruence.
Qed.

Lemma segments_short (ws : list Waypoint) :
  (length ws < 2)%nat -> segments p canvas ws = [].
Proof. destruct ws as [|a [|b ws]]; simpl; [reflexivity..|lia]. Qed.

(** The catch-up loop from a cursor [i >= 1]: it paints the next
    [min iters (length ws - i)] segments in order and moves the cursor by as
    many. *)
Lemma catchUp_spec (ws : list Waypoint) (t : Tick) (iters : nat)
    (st : AnimState) (ops : list DrawOp) :
  (1 <= waypointIndex st)%nat ->
  let k := Nat.min iters (length ws - waypointIndex st) in
  catchUp p canvas ws t iters st ops
  = Ran {| waypointIndex := waypointIndex st + k;
           lastPointAddedAtTime :=
             match k with
             | O => lastPointAddedAtTime st
             | S _ => Some (now t)
             end |}
        (ops ++ take k (drop (waypointIndex st - 1) (segments p canvas ws))).
Proof.
  revert st ops. induction iters as [|iters IH]; intros [i l] ops Hi;
    cbn [catchUp waypointIndex lastPointAddedAtTime] in *.
  - rewrite Nat.min_0_l. cbn [take]. now rewrite Nat.add_0_r, app_nil_r.
  - destruct (ws !! i) as [wp|] eqn:Hwp.
    + apply lookup_lt_Some in Hwp as Hlt.
      destruct i as [|i]; [lia|].
      destruct (addPath_segment ws i Hlt) as (op & Hop & Hadd).
      rewrite arrayAt_nat, Hwp in Hadd. rewrite Hadd.
      rewrite IH by (cbn [waypointIndex]; lia).
      cbn [waypointIndex lastPointAddedAtTime].
      assert (E : (length ws - S i = S (length ws - (S i + 1)))%nat) by lia.
      rewrite E, <- Nat.succ_min_distr.
      replace (S i - 1)%nat with i by lia.
      replace (S i + 1 - 1)%nat with (S i) by lia.
      rewrite (drop_S _ _ _ Hop). cbn [take]. rewrite <- app_assoc. cbn [app].
      f_equal. f_equal; [lia|].
      destruct (Nat.min iters (length ws - (S i + 1))); reflexivity.
    + apply lookup_ge_None in Hwp.
      rewrite IH by (cbn [waypointIndex]; lia).
      cbn [waypointIndex lastPointAddedAtTime].
      replace (length ws - i)%nat with 0%nat by lia.
      now rewrite !Nat.min_0_r.
Qed.

End Strokes.

(** ** One run of the frame callback *)
Section Step.

Variables (p : Props) (canvas : Canvas).

(** The first run paints the segment that ends at the cursor. *)
Lemma stepBody_first (ws : list Waypoint) (i : nat) (t : Tick) :
  (S i < length ws)%nat ->
  exists op,
    segments p canvas ws !! i = Some op
    /\ stepBody p canvas ws (mkAnim (S i) None) t
       = Ran (mkAnim (S i + 1) (Some (now t))) [op].
Proof.
  intros Hi. destruct (addPath_segment p canvas ws i Hi) as (op & Hop & Hadd).
  exists op. split; [exact Hop|].
  unfold stepBody. cbn [lastPointAddedAtTime waypointIndex]. now rewrite Hadd.
Qed.

(** With no waypoint at the cursor the first run throws before it
    paints. *)
Lemma stepBody_first_short (ws : list Waypoint) (i : nat) (t : Tick) :
  (length ws <= i)%nat ->
  stepBody p canvas ws (mkAnim i None) t = Raised [].
Proof.
  intros Hi. unfold stepBody. cbn [lastPointAddedAtTime waypointIndex].
  rewrite (arrayAt_nat ws i), (lookup_ge_None_2 ws i Hi).
  unfold addPath. now destruct (arrayAt ws (Z.of_nat i - 1)).
Qed.

(** Whatever the tick, a run from a cursor [>= 1] paints the next
    segments in order, none skipped, and an exception comes before any
    stroke. *)
Lemma stepBody_advances (ws : list Waypoint) (st : AnimState) (t : Tick) :
  (1 <= waypointIndex st)%nat ->
  match stepBody p canvas ws st t with
  | Raised ops => ops = []
  | Ran st' ops =>
      (1 <= waypointIndex st')%nat
      /\ drop (waypointIndex st - 1) (segments p canvas ws)
         = ops ++ drop (waypointIndex st' - 1) (segments p canvas ws)
  end.
Proof.
  intros Hi. destruct st as [i [last|]]; unfold stepBody;
    cbn [lastPointAddedAtTime waypointIndex] in *.
  - destruct (Qle_bool (delay p ws) (timestamp t - last)).
    + rewrite catchUp_spec by exact Hi. cbn [waypointIndex app].
      split; [lia|].
      set (k := Nat.min _ _).
      replace (i + k - 1)%nat with ((i - 1) + k)%nat by lia.
      now rewrite <- drop_drop, take_drop.
    + split; [exact Hi|reflexivity].
  - destruct i as [|i]; [lia|].
    destruct (Nat.lt_ge_cases (S i) (length ws)) as [Hlt|Hge].
    + destruct (stepBody_first ws i t Hlt) as (op & Hop & Hbody).
      unfold stepBody in Hbody. cbn [lastPointAddedAtTime waypointIndex] in Hbody.
      rewrite Hbody. cbn [waypointIndex]. split; [lia|].
      replace (S i - 1)%nat with i by lia.
      replace (S i + 1 - 1)%nat with (S i) by lia.
      now rewrite (drop_S _ _ _ Hop).
    + pose proof (stepBody_first_short ws (S i) t Hge) as Hbody.
      unfold stepBody in Hbody. cbn [lastPointAddedAtTime waypointIndex] in Hbody.
      now rewrite Hbody.
Qed.

End Step.

(** ** A render call and the picture it is heading for *)
Section RenderCall.

Variables (p : Props) (canvas : Canvas).

Lemma allSegments_cons (r : Route) (rs : list Route) :
  allSegments p canvas (r :: rs)
  = segments p canvas (waypointsToRender p r) ++ allSegments p canvas rs.
Proof. reflexivity. Qed.

Lemma allSegments_app (rs1 rs2 : list Route) :
  allSegments p canvas (rs1 ++ rs2)
  = allSegments p canvas rs1 ++ allSegments p canvas rs2.
Proof. unfold allSegments. now rewrite map_app, concat_app. Qed.

Lemma renderLoop_consistent (rs : list Route) (full log : list DrawOp) :
  full = log ++ allSegments p canvas rs ->
  consistent p canvas full (renderLoop p canvas rs).1
    (log ++ (renderLoop p canvas rs).2).
Proof.
  revert log. induction rs as [|r rs IH]; intros log Hfull.
  - simpl in *. now rewrite app_nil_r in *.
  - rewrite allSegments_cons in Hfull. cbn [renderLoop].
    destruct (invalidResolution (pathResolution p)).
    { simpl. rewrite app_nil_r. eexists. exact Hfull. }
    destruct (Qeq_bool (duration p) 0).
    + rewrite drawAll_segments.
      specialize (IH (log ++ segments p canvas (waypointsToRender p r))).
      destruct (renderLoop p canvas rs) as [s ops]. cbn [fst snd] in *.
      rewrite app_assoc. apply IH. now rewrite <- app_assoc.
    + simpl. rewrite app_nil_r. split; [lia|exact Hfull].
Qed.

Lemma consistent_prefix (full : list DrawOp) (s : CallStatus) (log : list DrawOp) :
  consistent p canvas full s log -> log `prefix_of` full.
Proof.
  destruct s; simpl; try (intros H; exact H).
  - intros ->. reflexivity.
  - intros [_ ->]. now eexists.
Qed.

Lemma onTick_consistent (full : list DrawOp) (s : CallStatus)
    (log : list DrawOp) (t : Tick) :
  consistent p canvas full s log ->
  consistent p canvas full (onTick p canvas s t).1
    (log ++ (onTick p canvas s t).2).
Proof.
  intros Hc.
  destruct s as [| e | | ws st rest |];
    try (simpl; rewrite app_nil_r; exact Hc).
  destruct Hc as [Hi Hfull]. unfold onTick, step.
  pose proof (stepBody_advances p canvas ws st t Hi) as Hadv.
  destruct (stepBody p canvas ws st t) as [st' ops|ops].
  - destruct Hadv as [Hi' Hdrop]. rewrite Hdrop, <- app_assoc in Hfull.
    destruct (Nat.ltb_spec (waypointIndex st') (length ws)) as [Hlt|Hge].
    + simpl. split; [exact Hi'|]. now rewrite <- app_assoc.
    + rewrite drop_ge in Hfull by (rewrite segments_length; lia).
      simpl in Hfull.
      pose proof (renderLoop_consistent rest full (log ++ ops)) as Hrest.
      destruct (renderLoop p canvas rest) as [s' ops']. cbn [fst snd] in *.
      rewrite app_assoc. apply Hrest. now rewrite <- app_assoc.
  - subst ops. simpl. rewrite app_nil_r. eexists. exact Hfull.
Qed.

Lemma onTicks_consistent (full : list DrawOp) (ts : list Tick) :
  forall (s : CallStatus) (log : list DrawOp),
    consistent p canvas full s log ->
    consistent p canvas full (onTicks p canvas s log ts).1
      (onTicks p canvas s log ts).2.
Proof.
  induction ts as [|t ts IH]; intros s log Hc; [exact Hc|].
  cbn [onTicks]. pose proof (onTick_consistent full s log t Hc) as Hstep.
  destruct (onTick p canvas s t) as [s' ops]. now apply IH.
Qed.

(** What was painted stays painted: the log only grows. *)
Lemma onTicks_log_grows (ts : list Tick) :
  forall (s : CallStatus) (log : list DrawOp),
    log `prefix_of` (onTicks p canvas s log ts).2.
Proof.
  induction ts as [|t ts IH]; intros s log; [reflexivity|].
  cbn [onTicks]. destruct (onTick p canvas s t) as [s' ops].
  etransitivity; [|apply IH]. now eexists.
Qed.

Lemma onTicks_app (ts1 ts2 : list Tick) :
  forall (s : CallStatus) (log : list DrawOp),
    onTicks p canvas s log (ts1 ++ ts2)
    = onTicks p canvas (onTicks p canvas s log ts1).1
        (onTicks p canvas s log ts1).2 ts2.
Proof.
  induction ts1 as [|t ts IH]; intros s log; [reflexivity|].
  simpl. destruct (onTick p canvas s t) as [s' ops]. apply IH.
Qed.

(** A call that is not suspended no longer reacts to frames. *)
Lemma onTicks_settled (s : CallStatus) (log : list DrawOp) (ts : list Tick) :
  (forall ws st rest, s <> Animating ws st rest) ->
  onTicks p canvas s log ts = (s, log).
Proof.
  intros Hs. revert log. induction ts as [|t ts IH]; intros log; [reflexivity|].
  cbn [onTicks].
  assert (E : onTick p canvas s t = (s, [])).
  { destruct s; try reflexivity. now destruct (Hs ws st rest). }
  rewrite E, app_nil_r. apply IH.
Qed.

Lemma render_consistent (rs : list Route) (ts : list Tick) :
  consistent p canvas (finalPicture p canvas rs)
    (render p (Some canvas) rs ts).1 (render p (Some canvas) rs ts).2.
Proof.
  unfold render, renderRoutes.
  pose proof (renderLoop_consistent rs (finalPicture p canvas rs)
                (paintBackground p canvas) eq_refl) as Hc.
  destruct (renderLoop p canvas rs) as [s ops]. cbn [fst snd] in Hc.
  now apply onTicks_consistent.
Qed.

(** With [duration] zero and a valid resolution the call runs to its end
    without suspending. *)
Lemma renderLoop_instantaneous (rs : list Route) :
  invalidResolution (pathResolution p) = false ->
  Qeq_bool (duration p) 0 = true ->
  renderLoop p canvas rs = (Fulfilled, allSegments p canvas rs).
Proof.
  intros Hv Hd. induction rs as [|r rs IH]; [reflexivity|].
  cbn [renderLoop]. rewrite Hv, Hd, drawAll_segments, IH. reflexivity.
Qed.

Lemma renderLoop_invalid (r : Route) (rs : list Route) :
  invalidResolution (pathResolution p) = true ->
  renderLoop p canvas (r :: rs)
  = (Rejected (InvalidPathResolution (pathResolution p)), []).
Proof. intros Hv. cbn [renderLoop]. now rewrite Hv. Qed.

End RenderCall.

Lemma prefix_app_cases {A} (l l1 l2 : list A) :
  l `prefix_of` l1 ++ l2 ->
  l `prefix_of` l1 \/ exists k, l = l1 ++ k /\ k `prefix_of` l2.
Proof.
  revert l. induction l1 as [|a l1 IH]; intros l Hl.
  - right. exists l. split; [reflexivity|exact Hl].
  - destruct l as [|b l]; [left; apply prefix_nil|].
    simpl in Hl. apply prefix_cons_inv_1 in Hl as Hab. subst b.
    apply prefix_cons_inv_2 in Hl. destruct (IH l Hl) as [H|(k & -> & Hk)].
    + left. now apply prefix_cons.
    + right. exists k. split; [reflexivity|exact Hk].
Qed.

Lemma segments_withDuration (d : Q) (p : Props) (canvas : Canvas) (ws : list Waypoint) :
  segments (withDuration d p) canvas ws = segments p canvas ws.
Proof.
  induction ws as [|a [|b ws] IH]; [reflexivity..|].
  change (strokeBetween p canvas a b :: segments (withDuration d p) canvas (b :: ws)
          = strokeBetween p canvas a b :: segments p canvas (b :: ws)).
  now rewrite IH.
Qed.

Lemma finalPicture_withDuration (d : Q) (p : Props) (canvas : Canvas) (rs : list Route) :
  finalPicture (withDuration d p) canvas rs = finalPicture p canvas rs.
Proof.
  unfold finalPicture. f_equal. unfold allSegments. f_equal.
  apply map_ext. intros r. apply segments_withDuration.
Qed.

(** ** Ordering of the strokes *)

(** C6.  Sequential track ordering: at any moment of a render, animated or
    not, what has been painted is an initial part of the final picture, in
    which the segments of each track come in waypoint order and track after
    track; so for a track B and the tracks before it, either nothing of B
    has been painted yet, or every segment of every earlier track has been
    painted before the first segment of B.  Later frames only add to what is
    painted. *)
Theorem sequential_track_ordering (p : Props) (canvas : Canvas)
    (routes : list Route) (ts : list Tick) :
  let log := (render p (Some canvas) routes ts).2 in
  log `prefix_of` finalPicture p canvas routes
  /\ (forall (before : list Route) (B : Route) (after : list Route),
        routes = before ++ B :: after ->
        log `prefix_of` finalPicture p canvas before
        \/ exists painted,
             log = finalPicture p canvas before ++ painted
             /\ painted `prefix_of`
                  segments p canvas (waypointsToRender p B)
                  ++ allSegments p canvas after)
  /\ (forall more : list Tick,
        log `prefix_of` (render p (Some canvas) routes (ts ++ more)).2).
Proof.
  intros log.
  assert (Hpre : log `prefix_of` finalPicture p canvas routes).
  { eapply consistent_prefix, render_consistent. }
  split; [exact Hpre|]. split.
  - intros before B after ->. unfold finalPicture in Hpre.
    rewrite allSegments_app, allSegments_cons, app_assoc in Hpre.
    apply prefix_app_cases in Hpre. exact Hpre.
  - intros more. subst log. unfold render, renderRoutes.
    destruct (renderLoop p canvas routes) as [s ops].
    rewrite onTicks_app. apply onTicks_log_grows.
Qed.

Lemma sequential_track_ordering_witness :
  let p := defaultProps (mkGeoBounds (-10) 10 10 (-10)) in
  let canvas := mkCanvas 100 100 in
  let A := mkRoute 1 "A" 0 "Ride" [mkCoords 0 0; mkCoords 5 5; mkCoords 10 10] in
  let B := mkRoute 2 "B" 0 "Run" [mkCoords 0 0; mkCoords (-5) 5] in
  let log := (render p (Some canvas) [A; B] [mkTick 16 17; mkTick 400 401]).2 in
  [A; B] = [A] ++ B :: []
  /\ (log `prefix_of` finalPicture p canvas [A]
      \/ exists painted,
           log = finalPicture p canvas [A] ++ painted
           /\ painted `prefix_of`
                segments p canvas (waypointsToRender p B) ++ allSegments p canvas []).
Proof.
  intros p canvas A B log. split; [reflexivity|].
  destruct (sequential_track_ordering p canvas [A; B] [mkTick 16 17; mkTick 400 401])
    as (_ & H & _).
  exact (H [A] B [] eq_refl).
Defined.

(** ** Animated against instantaneous *)

(** C2.  Instantaneous vs animated equivalence: when an animated render
    (duration > 0) has run to completion, what it has painted is, stroke for
    stroke and in the same order, what the render with duration 0 paints. *)
Theorem instantaneous_animated_equivalence (p : Props) (canvas : Canvas)
    (routes : list Route) (d : Q) (ts : list Tick) :
  0 < d ->
  (render (withDuration d p) (Some canvas) routes ts).1 = Fulfilled ->
  (render (withDuration 0 p) (Some canvas) routes []).1 = Fulfilled
  /\ (render (withDuration 0 p) (Some canvas) routes []).2
     = (render (withDuration d p) (Some canvas) routes ts).2.
Proof.
  intros _ Hdone.
  pose proof (render_consistent (withDuration d p) canvas routes ts) as Hc.
  rewrite Hdone in Hc. unfold consistent in Hc.
  rewrite <- Hc, finalPicture_withDuration.
  rewrite <- (finalPicture_withDuration 0).
  destruct routes as [|r rs]; [split; reflexivity|].
  destruct (invalidResolution (pathResolution p)) eqn:Hv.
  - exfalso. unfold render, renderRoutes in Hdone.
    rewrite renderLoop_invalid in Hdone by exact Hv.
    rewrite onTicks_settled in Hdone by discriminate. discriminate Hdone.
  - unfold render, renderRoutes, onTicks.
    rewrite renderLoop_instantaneous by (exact Hv || reflexivity).
    split; reflexivity.
Qed.

Lemma instantaneous_animated_equivalence_witness :
  let p := defaultProps (mkGeoBounds (-10) 10 10 (-10)) in
  let canvas := mkCanvas 100 100 in
  let route := mkRoute 1 "ride" 0 "Ride"
                 [mkCoords 0 0; mkCoords 5 5; mkCoords 10 (-10)] in
  let ts := [mkTick 16 17; mkTick 400 401] in
  (0 < 750
   /\ (render (withDuration 750 p) (Some canvas) [route] ts).1 = Fulfilled)
  /\ (render (withDuration 0 p) (Some canvas) [route] []).2
     = (render (withDuration 750 p) (Some canvas) [route] ts).2.
Proof.
  intros p canvas route ts.
  assert (H1 : 0 < 750) by reflexivity.
  assert (H2 : (render (withDuration 750 p) (Some canvas) [route] ts).1 = Fulfilled)
    by reflexivity.
  split; [split; assumption|].
  exact (proj2 (instantaneous_animated_equivalence p canvas [route] 750 ts H1 H2)).
Defined.

(** ** The animated render runs to completion *)
Section Completion.

Variables (p : Props) (canvas : Canvas).

Lemma decimate_length_le (every : Z) (ws : list Waypoint) :
  (length (decimate every ws) <= length ws)%nat.
Proof.
  rewrite decimate_length. unfold keptIndices.
  etransitivity; [apply filter_length_le|]. now rewrite length_seq.
Qed.



Hypothesis duration_pos : 0 < duration p.
Hypothesis resolution_valid : invalidResolution (pathResolution p) = false.








End Completion.


(** ** The catch-up policy *)

Lemma delay_pos (p : Props) (ws : list Waypoint) :
  0 < duration p -> (1 <= length ws)%nat -> 0 < delay p ws.
Proof.
  intros Hd Hn. unfold delay.
  assert (HN : 1 <= inject_Z (Z.of_nat (length ws))).
  { change 1 with (inject_Z 1). rewrite <- Zle_Qle. lia. }
  apply Qmult_lt_0_compat; [|reflexivity]. apply Qlt_shift_div_l; lra.
Qed.

(** ** Validation of the resolution *)
Section Validation.

Variables (p : Props) (canvas : Canvas).

Lemma renderLoop_not_rejected (rs : list Route) :
  invalidResolution (pathResolution p) = false ->
  notRejected (renderLoop p canvas rs).1.
Proof.
  intros Hv. induction rs as [|r rs IH]; [exact I|].
  cbn [renderLoop]. rewrite Hv, drawAll_segments.
  destruct (Qeq_bool (duration p) 0); [|exact I].
  now destruct (renderLoop p canvas rs).
Qed.

Lemma onTicks_not_rejected (ts : list Tick) :
  invalidResolution (pathResolution p) = false ->
  forall (s : CallStatus) (log : list DrawOp),
    notRejected s -> notRejected (onTicks p canvas s log ts).1.
Proof.
  intros Hv. induction ts as [|t ts IH]; intros s log Hs; [exact Hs|].
  cbn [onTicks].
  assert (Hs' : notRejected (onTick p canvas s t).1).
  { destruct s as [| e | | ws st rest |]; try exact Hs. unfold onTick.
    destruct (step p canvas ws st t); try exact I.
    pose proof (renderLoop_not_rejected rest Hv) as Hr.
    now destruct (renderLoop p canvas rest). }
  destruct (onTick p canvas s t) as [s' ops]. now apply IH.
Qed.

(** In animated mode a track of fewer than two waypoints stalls the
    call on its first frame: the callback throws, the promise is never
    settled and the tracks after it are never reached. *)
Lemma animated_short_track_stalls (route : Route) (rest : list Route)
    (t : Tick) (ts : list Tick) :
  invalidResolution (pathResolution p) = false ->
  Qeq_bool (duration p) 0 = false ->
  (length (waypoints route) < 2)%nat ->
  render p (Some canvas) (route :: rest) (t :: ts)
  = (Stalled, paintBackground p canvas).
Proof.
  intros Hv Hd Hn. unfold render, renderRoutes. cbn [renderLoop].
  rewrite Hv, Hd. cbn [onTicks]. unfold onTick, step, initialAnim.
  rewrite stepBody_first_short.
  - rewrite onTicks_settled by discriminate. now rewrite !app_nil_r.
  - pose proof (decimate_length_le (renderEveryNthPoint (pathResolution p))
                  (waypoints route)) as Hle.
    unfold waypointsToRender. lia.
Qed.

End Validation.

(** C10.  In instantaneous mode, with a valid resolution, a route whose
    decimated sequence has fewer than two waypoints makes the segment loop
    run no iteration: it paints nothing and throws nothing, the render of
    that route alone is fulfilled with only the background painted, and in
    front of other routes it changes nothing. *)
Theorem instantaneous_short_route (p : Props) (canvas : Canvas) (route : Route) :
  duration p == 0 ->
  0 < pathResolution p -> pathResolution p <= 1 ->
  (length (waypointsToRender p route) < 2)%nat ->
  drawAll p canvas (waypointsToRender p route) = Some []
  /\ render p (Some canvas) [route] [] = (Fulfilled, paintBackground p canvas)
  /\ forall rest : list Route,
       render p (Some canvas) (route :: rest) []
       = render p (Some canvas) rest [].
Proof.
  intros Hd H0 H1 Hn.
  apply Qeq_bool_iff in Hd.
  assert (Hv : invalidResolution (pathResolution p) = false).
  { apply invalidResolution_false. now split. }
  assert (Hs : segments p canvas (waypointsToRender p route) = [])
    by now apply segments_short.
  split; [now rewrite drawAll_segments, Hs|].
  assert (Hall : forall rest,
             render p (Some canvas) (route :: rest) []
             = render p (Some canvas) rest []).
  { intros rest. unfold render, renderRoutes.
    rewrite !renderLoop_instantaneous by assumption.
    now rewrite allSegments_cons, Hs. }
  split; [|exact Hall].
  rewrite Hall. unfold render, renderRoutes. simpl. now rewrite app_nil_r.
Qed.

Lemma instantaneous_short_route_witness :
  let p := mkProps (mkGeoBounds (-10) 10 10 (-10)) (1 # 2) 0 1 5000
             (Some "white") "black" in
  let route := mkRoute 7 "treadmill" 0 "Run" [mkCoords 3 4] in
  (duration p == 0 /\ (length (waypointsToRender p route) < 2)%nat)
  /\ render p (Some (mkCanvas 100 50)) [route] []
     = (Fulfilled, [ClearRect 0 0 100 50; FillRect "white" 0 0 100 50]).
Proof.
  intros p route.
  assert (Hd : duration p == 0) by reflexivity.
  assert (Hn : (length (waypointsToRender p route) < 2)%nat) by (vm_compute; lia).
  split; [split; assumption|].
  destruct (instantaneous_short_route p (mkCanvas 100 50) route Hd) as (_ & H & _);
    [reflexivity|discriminate|exact Hn|exact H].
Defined.

(** ** The effect: cancelling and rendering again *)
Section Sweep.

Lemma cancelFrom_filter (count : nat) :
  forall (i : Z) (cbs : list FrameCallback),
    cancelFrom i count cbs
    = List.filter
        (fun cb => negb ((i <=? handle cb)%Z && (handle cb <? i + Z.of_nat count)%Z))
        cbs.
Proof.
  induction count as [|count IH]; intros i cbs.
  - cbn [cancelFrom]. induction cbs as [|cb cbs IHc]; [reflexivity|].
    cbn [List.filter]. rewrite <- IHc.
    replace (negb ((i <=? handle cb)%Z && (handle cb <? i + Z.of_nat 0)%Z))
      with true; [reflexivity|].
    decide_Z_tests.
  - cbn [cancelFrom]. rewrite IH. unfold cancelAnimationFrame.
    induction cbs as [|cb cbs IHc]; [reflexivity|].
    cbn [List.filter]. rewrite <- IHc.
    replace (negb ((i <=? handle cb)%Z && (handle cb <? i + Z.of_nat (S count))%Z))
      with (negb (handle cb =? i)%Z
            && negb ((i + 1 <=? handle cb)%Z
                     && (handle cb <? i + 1 + Z.of_nat count)%Z))
      by decide_Z_tests.
    destruct (negb (handle cb =? i)%Z); [|reflexivity].
    cbn [List.filter andb].
    now destruct (negb ((i + 1 <=? handle cb)%Z
                        && (handle cb <? i + 1 + Z.of_nat count)%Z)).
Qed.

(** The sweep removes exactly the callbacks with a handle from 1 to
    99998. *)
Lemma cancelAllFrames_filter (cbs : list FrameCallback) :
  cancelAllFrames cbs = List.filter (fun cb => negb (swept (handle cb))) cbs.
Proof.
  unfold cancelAllFrames. rewrite cancelFrom_filter.
  apply List.filter_ext. intros cb. unfold swept.
  rewrite Z2Nat.id by (unfold SWEEP_END; lia).
  replace (1 + (SWEEP_END - 1))%Z with SWEEP_END by lia. reflexivity.
Qed.

Lemma cancelAllFrames_in_range (cbs : list FrameCallback) :
  Forall (fun cb => swept (handle cb) = true) cbs -> cancelAllFrames cbs = [].
Proof.
  intros H. rewrite cancelAllFrames_filter.
  induction H as [|cb cbs Hcb _ IH]; [reflexivity|].
  simpl. now rewrite Hcb.
Qed.

Lemma cancelAllFrames_out_of_range (cbs : list FrameCallback) :
  Forall (fun cb => swept (handle cb) = false) cbs -> cancelAllFrames cbs = cbs.
Proof.
  intros H. rewrite cancelAllFrames_filter.
  induction H as [|cb cbs Hcb _ IH]; [reflexivity|].
  simpl. now rewrite Hcb, IH.
Qed.

End Sweep.

Section Rerender.

Lemma paintAll_app (canvas : Canvas) (bm ops1 ops2 : list DrawOp) :
  paintAll canvas bm (ops1 ++ ops2)
  = paintAll canvas (paintAll canvas bm ops1) ops2.
Proof. apply foldl_app. Qed.

(** Whatever was on the canvas, the background of a render starts from
    a blank bitmap. *)
Lemma paintAll_background (p : Props) (canvas : Canvas) (bm ops : list DrawOp) :
  paintAll canvas bm (paintBackground p canvas ++ ops)
  = paintAll canvas [] (paintBackground p canvas ++ ops).
Proof.
  unfold paintBackground, paintAll. cbn [app foldl paint].
  now rewrite !decide_True by auto.
Qed.

Lemma renderRoutes_background (p : Props) (canvas : Canvas) (rs : list Route) :
  exists ops,
    (renderRoutes p (Some canvas) rs).2 = paintBackground p canvas ++ ops.
Proof.
  unfold renderRoutes. destruct (renderLoop p canvas rs) as [s ops].
  now exists ops.
Qed.

Lemma settle_similar (p : Props) (s : CallStatus) (ops : list DrawOp)
    (w w' : World) :
  similar w w' -> similar (settle p s ops w) (settle p s ops w').
Proof.
  intros (Hc & Hb & Hf). unfold settle, requestAnimationFrame.
  destruct s; repeat split; cbn [canvasEl bitmap frameCallbacks];
    rewrite ?Hc, ?Hb; try reflexivity; try exact Hf.
  apply Forall2_app; [exact Hf|]. now repeat constructor.
Qed.

Lemma runCallbacks_similar (f : Frame) (cbs cbs' : list FrameCallback) :
  Forall2 sameClosure cbs cbs' ->
  forall (k : nat) (w w' : World),
    similar w w' ->
    similar (runCallbacks f k cbs w) (runCallbacks f k cbs' w').
Proof.
  induction 1 as [|cb cb' cbs cbs' [Hp Hs] _ IH]; intros k w w' Hw; [exact Hw|].
  cbn [runCallbacks]. destruct Hw as (Hc & Hw). rewrite Hp, Hs, Hc.
  destruct (onTick _ _ _ _) as [s ops].
  apply IH, settle_similar. exact (conj Hc Hw).
Qed.

Lemma runFrames_similar (fs : list Frame) :
  forall w w' : World, similar w w' -> similar (runFrames w fs) (runFrames w' fs).
Proof.
  induction fs as [|f fs IH]; intros w w' Hw; [exact Hw|].
  apply IH. destruct Hw as (Hc & Hb & Hf). unfold runFrame.
  apply runCallbacks_similar; [exact Hf|].
  repeat split; cbn [canvasEl bitmap frameCallbacks]; auto.
Qed.

(** As long as every scheduled callback has a handle below 99999, the
    effect leaves no trace of the superseded renders: from then on the
    bitmap is that of the same render on a fresh page. *)
Lemma rerender_within_sweep_range (p : Props) (canvas : Canvas)
    (rs : list Route) (w : World) (fs : list Frame) :
  Forall (fun cb => swept (handle cb) = true) (frameCallbacks w) ->
  bitmap (runFrames (effect p canvas rs w) fs)
  = bitmap (runFrames (effect p canvas rs (page canvas 0)) fs).
Proof.
  intros Hin.
  assert (Hsim : similar (effect p canvas rs w) (effect p canvas rs (page canvas 0))).
  { unfold effect. rewrite (cancelAllFrames_in_range _ Hin).
    destruct (renderRoutes_background p canvas rs) as [ops Hops].
    destruct (renderRoutes p (Some canvas) rs) as [s ops0].
    cbn [snd] in Hops. subst ops0.
    unfold settle, requestAnimationFrame, page.
    cbn [canvasEl bitmap frameCallbacks callbackId].
    rewrite (paintAll_background p canvas (bitmap w)).
    destruct s; repeat split; cbn [canvasEl bitmap frameCallbacks];
      try reflexivity; try constructor; repeat constructor. }
  now destruct (runFrames_similar fs _ _ Hsim) as (_ & Hb & _).
Qed.

End Rerender.

(** C9.  Cancellation on re-render, evaluated where it fails.  On a page
    that had requested 99998 animation frames before, the frame callback of
    the first render gets the handle 99999, which the sweep of the effect
    does not reach; the callback outlives the second render and paints the
    segments of the superseded track A over the picture of track B, so the
    final bitmap differs from that of an uninterrupted render of B.  On a
    fresh page, where the handle is 1, the two bitmaps agree. *)
Theorem stale_frame_survives_sweep :
  let stale := effect Scenario.first Scenario.canvas [Scenario.A]
                 (page Scenario.canvas 99998) in
  map handle (frameCallbacks stale) = [99999%Z]
  /\ swept 99999 = false
  /\ map handle (frameCallbacks
                  (effect Scenario.second Scenario.canvas [Scenario.B] stale))
     = [99999%Z]
  /\ frameCallbacks (Scenario.superseded 99998) = []
  /\ frameCallbacks Scenario.uninterrupted = []
  /\ bitmap Scenario.uninterrupted
     = segments Scenario.second Scenario.canvas (waypoints Scenario.B)
  /\ bitmap (Scenario.superseded 99998)
     = segments Scenario.second Scenario.canvas (waypoints Scenario.B)
       ++ segments Scenario.first Scenario.canvas (waypoints Scenario.A)
  /\ bitmap (Scenario.superseded 99998) <> bitmap Scenario.uninterrupted
  /\ bitmap (Scenario.superseded 0) = bitmap Scenario.uninterrupted.
Proof.
  intros stale. subst stale.
  repeat match goal with |- _ /\ _ => split end;
    try (vm_compute; reflexivity).
  vm_compute. discriminate.
Qed.

(** * Further properties of the renderer *)

(** ** The projection on and around the canvas *)
Section ProjectionFacts.




End ProjectionFacts.



(** ** Decimation and the synchronous loop *)
Section DecimationFacts.

Lemma filterFrom_all {A} (f : A -> nat -> bool) (i : nat) (l : list A) :
  (forall a j, f a j = true) -> filterFrom f i l = l.
Proof.
  intros Hf. revert i. induction l as [|a l IH]; intros i; [reflexivity|].
  simpl. now rewrite Hf, IH.
Qed.

Lemma filterFrom_sublist {A} (f : A -> nat -> bool) (i : nat) (l : list A) :
  filterFrom f i l `sublist_of` l.
Proof.
  revert i. induction l as [|a l IH]; intros i; [constructor|].
  simpl. destruct (f a i); [apply sublist_skip|apply sublist_cons]; apply IH.
Qed.

End DecimationFacts.

(** X4.  At resolution 1, the default, decimation keeps every waypoint of
    the track. *)
Theorem decimation_full_resolution (p : Props) (route : Route) :
  pathResolution p == 1 -> waypointsToRender p route = waypoints route.
Proof.
  intros Hr. unfold waypointsToRender, decimate, arrayFilter, renderEveryNthPoint,
    JsMath.ceil.
  assert (E : Qceiling (1 / pathResolution p) = 1%Z).
  { rewrite Hr. reflexivity. }
  rewrite E. apply filterFrom_all. intros _ j. unfold keepWaypoint, isMultipleOf.
  rewrite Z.rem_1_r. simpl. now rewrite orb_true_r.
Qed.

Lemma decimation_full_resolution_witness :
  let p := defaultProps (mkGeoBounds (-10) 10 10 (-10)) in
  let route := mkRoute 1 "ride" 0 "Ride" [mkCoords 0 0; mkCoords 1 1; mkCoords 2 2] in
  pathResolution p == 1 /\ length (waypointsToRender p route) = 3%nat.
Proof.
  intros p route.
  assert (Hr : pathResolution p == 1) by reflexivity.
  split; [exact Hr|].
  now rewrite (decimation_full_resolution p route Hr).
Defined.

(** X6.  The synchronous loop never throws, whatever the sequence: it
    paints one stroke less than there are waypoints (none for an empty
    sequence), and its stroke number i joins waypoint i to waypoint i + 1, with
    the thickness and colour of the props. *)
Theorem drawAll_strokes (p : Props) (canvas : Canvas) (ws : list Waypoint) :
  exists ops,
    drawAll p canvas ws = Some ops
    /\ length ops = (length ws - 1)%nat
    /\ forall (i : nat) (a b : Waypoint),
         ws !! i = Some a -> ws !! S i = Some b ->
         ops !! i
         = Some (StrokeLine (thickness p) (pathColor p)
                   (coordinatesToBoundedCanvasPoint a canvas (geoBounds p))
                   (coordinatesToBoundedCanvasPoint b canvas (geoBounds p))).
Proof.
  exists (segments p canvas ws). split; [apply drawAll_segments|].
  split; [apply segments_length|].
  intros i a b Ha Hb. now apply segments_lookup.
Qed.

Lemma drawAll_strokes_witness :
  exists ops,
    drawAll (defaultProps (mkGeoBounds (-10) 10 10 (-10))) (mkCanvas 100 100)
      [mkCoords 0 0; mkCoords 5 5] = Some ops
    /\ length ops = 1%nat.
Proof.
  destruct (drawAll_strokes (defaultProps (mkGeoBounds (-10) 10 10 (-10)))
              (mkCanvas 100 100) [mkCoords 0 0; mkCoords 5 5]) as (ops & H1 & H2 & _).
  exists ops. split; assumption.
Defined.

(** ** Animated renders that stall or never finish *)

(** X7.  In animated mode (a duration other than 0), with a valid
    resolution, a track of fewer than two waypoints stalls the render on its
    first frame: the callback throws before it paints, the call is never
    fulfilled, and the tracks after it are never painted, however many
    frames follow. *)
Theorem animated_track_without_segment_stalls (p : Props) (canvas : Canvas)
    (route : Route) (rest : list Route) (t : Tick) (ts : list Tick) :
  0 < pathResolution p -> pathResolution p <= 1 ->
  ~ duration p == 0 ->
  (length (waypoints route) < 2)%nat ->
  render p (Some canvas) (route :: rest) (t :: ts)
  = (Stalled, paintBackground p canvas).
Proof.
  intros H0 H1 Hd Hn. apply animated_short_track_stalls.
  - apply invalidResolution_false. now split.
  - destruct (Qeq_bool (duration p) 0) eqn:E; [|reflexivity].
    apply Qeq_bool_iff in E. contradiction.
  - exact Hn.
Qed.

Lemma animated_track_without_segment_stalls_witness :
  let p := defaultProps (mkGeoBounds (-10) 10 10 (-10)) in
  let canvas := mkCanvas 100 100 in
  let short := mkRoute 7 "treadmill" 0 "Run" [mkCoords 3 4] in
  let ride := mkRoute 1 "ride" 0 "Ride" [mkCoords 0 0; mkCoords 5 5] in
  (0 < pathResolution p /\ pathResolution p <= 1 /\ ~ duration p == 0
   /\ (length (waypoints short) < 2)%nat)
  /\ render p (Some canvas) [short; ride] [mkTick 16 17; mkTick 400 401]
     = (Stalled, [ClearRect 0 0 100 100]).
Proof.
  intros p canvas short ride.
  assert (H0 : 0 < pathResolution p) by reflexivity.
  assert (H1 : pathResolution p <= 1) by discriminate.
  assert (H2 : ~ duration p == 0) by discriminate.
  assert (H3 : (length (waypoints short) < 2)%nat) by (simpl; lia).
  split; [repeat split; assumption|].
  exact (animated_track_without_segment_stalls p canvas short [ride] (mkTick 16 17)
           [mkTick 400 401] H0 H1 H2 H3).
Defined.



Section NegativeDuration.

Variables (p : Props) (canvas : Canvas).
Hypothesis duration_negative : duration p < 0.

Lemma delay_negative (ws : list Waypoint) :
  (1 <= length ws)%nat -> delay p ws < 0.
Proof.
  intros Hn. unfold delay.
  assert (HN : 1 <= inject_Z (Z.of_nat (length ws))).
  { change 1 with (inject_Z 1). rewrite <- Zle_Qle. lia. }
  set (N := inject_Z (Z.of_nat (length ws))) in *.
  assert (H : duration p / N < 0).
  { apply Qlt_shift_div_r; lra. }
  lra.
Qed.

(** With a negative delay and time not running backwards, a later frame
    paints nothing and leaves the cursor where it is. *)
Lemma stepBody_negative_delay (ws : list Waypoint) (i : nat) (last : Q) (t : Tick) :
  (1 <= length ws)%nat -> last <= timestamp t ->
  stepBody p canvas ws (mkAnim i (Some last)) t = Ran (mkAnim i (Some last)) [].
Proof.
  intros Hn Ht. unfold stepBody. cbn [lastPointAddedAtTime].
  destruct (Qle_bool (delay p ws) (timestamp t - last)); [|reflexivity].
  pose proof (delay_negative ws Hn) as Hd.
  assert (Hq : (timestamp t - last) / delay p ws <= 0).
  { assert (E : (timestamp t - last) / delay p ws * delay p ws
                == timestamp t - last) by (field; lra).
    destruct (Qlt_le_dec 0 ((timestamp t - last) / delay p ws)) as [Hpos|Hle];
      [|exact Hle].
    exfalso. nra. }
  assert (Hc : (JsMath.ceil ((timestamp t - last) / delay p ws) <= 0)%Z).
  { change 0%Z with (Qceiling 0). now apply Qceiling_resp_le. }
  replace (Z.to_nat (JsMath.ceil ((timestamp t - last) / delay p ws))) with 0%nat
    by lia.
  reflexivity.
Qed.

End NegativeDuration.

(** X9.  A negative duration is taken for an animated render, and that
    render never finishes a track that still has more than two waypoints
    after decimation: the first frame paints the first segment, and every
    later frame whose timestamp is not before that stroke paints nothing and
    schedules itself again. *)
Theorem negative_duration_never_completes (p : Props) (canvas : Canvas)
    (route : Route) (rest : list Route) (t : Tick) (ts : list Tick) :
  duration p < 0 ->
  invalidResolution (pathResolution p) = false ->
  (2 < length (waypointsToRender p route))%nat ->
  Forall (fun t' => now t <= timestamp t') ts ->
  exists w0 w1,
    waypointsToRender p route !! 0%nat = Some w0
    /\ waypointsToRender p route !! 1%nat = Some w1
    /\ render p (Some canvas) (route :: rest) (t :: ts)
       = (Animating (waypointsToRender p route) (mkAnim 2 (Some (now t))) rest,
          paintBackground p canvas ++ [strokeBetween p canvas w0 w1]).
Proof.
  intros Hd Hv Hn Hts.
  set (ws := waypointsToRender p route) in *.
  destruct (lookup_lt_is_Some_2 ws 0 ltac:(lia)) as [w0 H0].
  destruct (lookup_lt_is_Some_2 ws 1 ltac:(lia)) as [w1 H1].
  exists w0, w1. split; [exact H0|]. split; [exact H1|].
  assert (Hnz : Qeq_bool (duration p) 0 = false).
  { destruct (Qeq_bool (duration p) 0) eqn:E; [|reflexivity].
    apply Qeq_bool_iff in E. rewrite E in Hd. discriminate Hd. }
  unfold render, renderRoutes. cbn [renderLoop]. rewrite Hv, Hnz. fold ws.
  cbn [onTicks]. unfold onTick at 1. unfold step, initialAnim.
  destruct (stepBody_first p canvas ws 0 t ltac:(lia)) as (op & Hop & ->).
  rewrite (segments_lookup p canvas ws 0 w0 w1 H0 H1) in Hop.
  injection Hop as <-. cbn [waypointIndex]. change (1 + 1)%nat with 2%nat.
  destruct (Nat.ltb_spec 2 (length ws)) as [_|Hge]; [|lia].
  rewrite !app_nil_r.
  generalize (paintBackground p canvas ++ [strokeBetween p canvas w0 w1]).
  induction Hts as [|t' ts' Ht' _ IH]; intros log; [reflexivity|].
  cbn [onTicks]. unfold onTick, step.
  rewrite (stepBody_negative_delay p canvas Hd ws 2 (now t) t') by (exact Ht' || lia).
  cbn [waypointIndex].
  destruct (Nat.ltb_spec 2 (length ws)) as [_|Hge]; [|lia].
  rewrite app_nil_r. apply IH.
Qed.

Lemma negative_duration_never_completes_witness :
  let p := mkProps (mkGeoBounds (-10) 10 10 (-10)) 1 (-750) 1 5000 None "black" in
  let canvas := mkCanvas 100 100 in
  let route := mkRoute 1 "A" 0 "Ride" [mkCoords 0 0; mkCoords 5 5; mkCoords 10 10] in
  let ts := [mkTick 100 101; mkTick 5000 5001; mkTick 90000 90001] in
  (duration p < 0 /\ Forall (fun t' => 17 <= timestamp t') ts)
  /\ (render p (Some canvas) [route] (mkTick 16 17 :: ts)).1
     = Animating (waypoints route) (mkAnim 2 (Some 17)) [].
Proof.
  intros p canvas route ts.
  assert (H1 : duration p < 0) by reflexivity.
  assert (H2 : Forall (fun t' => 17 <= timestamp t') ts)
    by (repeat constructor; discriminate).
  split; [split; assumption|].
  destruct (negative_duration_never_completes p canvas route [] (mkTick 16 17) ts H1
              eq_refl ltac:(simpl; lia) H2) as (w0 & w1 & _ & _ & ->).
  reflexivity.
Defined.

(** ** The host: what the sweep reaches and what frames leave behind *)
Section HostFacts.

Lemma settle_callbacks (p : Props) (s : CallStatus) (ops : list DrawOp) (w : World) :
  (length (frameCallbacks (settle p s ops w)) <= S (length (frameCallbacks w)))%nat
  /\ ((forall ws st rest, s <> Animating ws st rest) ->
      frameCallbacks (settle p s ops w) = frameCallbacks w).
Proof.
  unfold settle, requestAnimationFrame.
  destruct s; cbn [frameCallbacks]; (split; [try lia|]); try reflexivity.
  - rewrite length_app. simpl. lia.
  - intros H. now destruct (H ws st rest).
Qed.

Lemma runCallbacks_callbacks (f : Frame) (cbs : list FrameCallback) :
  forall (k : nat) (w : World),
    (length (frameCallbacks (runCallbacks f k cbs w))
     <= length (frameCallbacks w) + length cbs)%nat.
Proof.
  induction cbs as [|cb cbs IH]; intros k w; [simpl; lia|].
  cbn [runCallbacks]. destruct (onTick _ _ _ _) as [s ops].
  etransitivity; [apply IH|].
  pose proof (settle_callbacks (callProps cb) s ops w) as [H _]. simpl. lia.
Qed.

End HostFacts.

(** X10.  Running frames never adds to the number of scheduled callbacks:
    a callback that runs schedules at most one successor, so each render
    call has at most one callback waiting at any time. *)
Theorem frames_never_add_callbacks (w : World) (fs : list Frame) :
  (length (frameCallbacks (runFrames w fs)) <= length (frameCallbacks w))%nat.
Proof.
  revert w. induction fs as [|f fs IH]; intros w; [reflexivity|].
  unfold runFrames in *. cbn [foldl]. etransitivity; [apply IH|].
  unfold runFrame. etransitivity; [apply runCallbacks_callbacks|]. simpl. lia.
Qed.

(** X11.  The sweep of the effect keeps, in their order, exactly the
    scheduled callbacks whose handle is below 1 or at least 99999. *)
Theorem sweep_reach (cbs : list FrameCallback) :
  cancelAllFrames cbs `sublist_of` cbs
  /\ forall cb : FrameCallback,
       In cb (cancelAllFrames cbs)
       <-> In cb cbs /\ ((handle cb < 1)%Z \/ (99999 <= handle cb)%Z).
Proof.
  rewrite cancelAllFrames_filter. split.
  - induction cbs as [|cb cbs IH]; [constructor|].
    simpl. destruct (negb (swept (handle cb)));
      [apply sublist_skip|apply sublist_cons]; exact IH.
  - intros cb. rewrite filter_In. unfold swept, SWEEP_END.
    rewrite negb_true_iff, andb_false_iff, Z.leb_gt, Z.ltb_ge. tauto.
Qed.

(** X12.  When every scheduled callback has a handle from 1 to 99998,
    the effect cancels them all, and from then on the canvas shows what the
    same render shows on a fresh page, frame after frame: nothing of the
    superseded renders is painted any more. *)
Theorem rerender_discards_superseded (p : Props) (canvas : Canvas)
    (routes : list Route) (w : World) (fs : list Frame) :
  Forall (fun cb => (1 <= handle cb < 99999)%Z) (frameCallbacks w) ->
  map callProps (frameCallbacks (effect p canvas routes w))
  = map callProps (frameCallbacks (effect p canvas routes (page canvas 0)))
  /\ bitmap (runFrames (effect p canvas routes w) fs)
     = bitmap (runFrames (effect p canvas routes (page canvas 0)) fs).
Proof.
  intros Hin.
  assert (Hsw : Forall (fun cb => swept (handle cb) = true) (frameCallbacks w)).
  { eapply Forall_impl; [exact Hin|]. intros cb Hcb. cbv beta in Hcb.
    unfold swept, SWEEP_END.
    apply andb_true_iff. split; [apply Z.leb_le|apply Z.ltb_lt]; lia. }
  split; [|now apply rerender_within_sweep_range].
  unfold effect. rewrite (cancelAllFrames_in_range _ Hsw).
  destruct (renderRoutes p (Some canvas) routes) as [s ops].
  unfold settle, requestAnimationFrame, page. destruct s; reflexivity.
Qed.

Lemma rerender_discards_superseded_witness :
  let w := effect Scenario.first Scenario.canvas [Scenario.A]
             (page Scenario.canvas 41) in
  Forall (fun cb => (1 <= handle cb < 99999)%Z) (frameCallbacks w)
  /\ bitmap (runFrames (effect Scenario.second Scenario.canvas [Scenario.B] w)
               Scenario.frames)
     = bitmap Scenario.uninterrupted.
Proof.
  intros w.
  assert (H : Forall (fun cb => (1 <= handle cb < 99999)%Z) (frameCallbacks w))
    by (apply Forall_forall; intros cb Hcb; apply list_elem_of_In in Hcb;
        vm_compute in Hcb; destruct Hcb as [<-|[]]; simpl; lia).
  split; [exact H|].
  exact (proj2 (rerender_discards_superseded Scenario.second Scenario.canvas
                  [Scenario.B] w Scenario.frames H)).
Defined.

(** ** The size of the surface *)



(** X14.  The cap of 20000 pixels bounds the width only.  While the width
    in degrees times the pixels per degree stays within the cap, both sides
    have the scale asked for: the width is the width in degrees times the
    pixels per degree and the height is the height in degrees times the
    pixels per degree, however large that is.  Beyond the cap the width is
    20000 and the height is 20000 times the height in degrees over the width
    in degrees. *)
Theorem surface_scale (b : GeoBounds) (pixelsPerDegree : Q) :
  leftLon b < rightLon b -> lowerLat b < upperLat b ->
  let widthDeg := rightLon b - leftLon b in
  let heightDeg := upperLat b - lowerLat b in
  let size := surfaceSize b pixelsPerDegree in
  (widthDeg * pixelsPerDegree <= 20000 ->
   effectiveWidth size == widthDeg * pixelsPerDegree
   /\ effectiveHeight size == heightDeg * pixelsPerDegree)
  /\ (20000 <= widthDeg * pixelsPerDegree ->
      effectiveWidth size == 20000
      /\ effectiveHeight size == 20000 * heightDeg / widthDeg).
Proof.
  intros Hx Hy widthDeg heightDeg size.
  assert (Ew : widthInDegrees b == widthDeg).
  { unfold widthInDegrees, JsMath.abs, widthDeg. rewrite Qabs_neg by lra. ring. }
  assert (Eh : heightInDegrees b == heightDeg).
  { unfold heightInDegrees, JsMath.abs, heightDeg. rewrite Qabs_pos by lra. ring. }
  assert (Hwpos : 0 < widthDeg) by (unfold widthDeg; lra).
  assert (Hhpos : 0 < heightDeg) by (unfold heightDeg; lra).
  unfold size, surfaceSize, aspectRatio, JsMath.min, MAX_WIDTH.
  cbn [effectiveWidth effectiveHeight]. rewrite Ew, Eh.
  split; intros Hcap.
  - rewrite (Q.min_l _ _ Hcap). split; [reflexivity|]. field. split; lra.
  - rewrite (Q.min_r _ _ Hcap). split; [reflexivity|]. field. split; lra.
Qed.

Lemma surface_scale_witness :
  let b := mkGeoBounds (-122) (-121) 45 35 in
  (leftLon b < rightLon b /\ lowerLat b < upperLat b
   /\ (rightLon b - leftLon b) * 5000 <= 20000)
  /\ effectiveWidth (surfaceSize b 5000) == 5000
  /\ effectiveHeight (surfaceSize b 5000) == 50000.
Proof.
  intros b.
  assert (Hx : leftLon b < rightLon b) by reflexivity.
  assert (Hy : lowerLat b < upperLat b) by reflexivity.
  assert (Hc : (rightLon b - leftLon b) * 5000 <= 20000) by discriminate.
  split; [repeat split; assumption|].
  destruct (surface_scale b 5000 Hx Hy) as [H _].
  destruct (H Hc) as [-> ->]. split; reflexivity.
Defined.

(** * Properties of the customizer *)

(** ** The activity type options *)
Section TypeOptions.

Lemma indexOfFrom_first (item : string) (arr : list string) :
  In item arr ->
  forall i : nat,
    exists k : nat,
      arr !! k = Some item /\ indexOfFrom item i arr = Z.of_nat (i + k).
Proof.
  induction arr as [|a arr IH]; intros Hin i; [destruct Hin|].
  cbn [indexOfFrom]. destruct (String.eqb_spec a item) as [->|Hne].
  - exists 0%nat. split; [reflexivity|]. now rewrite Nat.add_0_r.
  - destruct Hin as [E|Hin]; [contradiction|].
    destruct (IH Hin (S i)) as (k & Hk & Hidx).
    exists (S k). split; [exact Hk|]. rewrite Hidx. f_equal. lia.
Qed.

Lemma filterFrom_In_index {A} (f : A -> nat -> bool) (l : list A) (b : A) :
  forall i : nat,
    In b (filterFrom f i l) ->
    exists k : nat, l !! k = Some b /\ f b (i + k)%nat = true.
Proof.
  induction l as [|a l IH]; intros i Hin; [destruct Hin|].
  cbn [filterFrom] in Hin. destruct (f a i) eqn:Hf.
  - destruct Hin as [<-|Hin].
    + exists 0%nat. split; [reflexivity|]. now rewrite Nat.add_0_r.
    + destruct (IH (S i) Hin) as (k & Hk & Hfk).
      exists (S k). split; [exact Hk|]. now rewrite Nat.add_succ_r.
  - destruct (IH (S i) Hin) as (k & Hk & Hfk).
    exists (S k). split; [exact Hk|]. now rewrite Nat.add_succ_r.
Qed.

Lemma filterFrom_In_kept {A} (f : A -> nat -> bool) (l : list A) (b : A) :
  forall i k : nat,
    l !! k = Some b -> f b (i + k)%nat = true -> In b (filterFrom f i l).
Proof.
  induction l as [|a l IH]; intros i k Hk Hf; [discriminate|].
  cbn [filterFrom]. destruct k as [|k].
  - injection Hk as ->. rewrite Nat.add_0_r in Hf. rewrite Hf. now left.
  - rewrite Nat.add_succ_r in Hf.
    destruct (f a i); [right|]; apply (IH (S i) k); assumption.
Qed.

(** Keeping each element at the index [indexOf] gives for it leaves no
    element twice. *)
Lemma first_occurrences_NoDup (arr l : list string) :
  forall i : nat,
    NoDup (filterFrom (fun item index => (indexOf arr item =? Z.of_nat index)%Z) i l).
Proof.
  induction l as [|a l IH]; intros i; [constructor|].
  cbn [filterFrom]. destruct (Z.eqb_spec (indexOf arr a) (Z.of_nat i)) as [Hi|_];
    [|apply IH].
  constructor; [|apply IH].
  intros Hin. apply list_elem_of_In in Hin.
  destruct (filterFrom_In_index _ l a (S i) Hin) as (k & _ & Hk).
  apply Z.eqb_eq in Hk. lia.
Qed.

(** [indexOf] returns the least index of an item that occurs. *)
Lemma indexOfFrom_least (item : string) (arr : list string) :
  forall i k : nat,
    arr !! k = Some item ->
    (Z.of_nat i <= indexOfFrom item i arr <= Z.of_nat (i + k))%Z.
Proof.
  induction arr as [|a arr IH]; intros i k Hk; [discriminate|].
  cbn [indexOfFrom]. destruct (String.eqb_spec a item) as [->|Hne]; [lia|].
  destruct k as [|k]; [injection Hk as ->; contradiction|].
  specialize (IH (S i) k Hk). lia.
Qed.

(** Two elements the filter keeps, in their order in the result, were
    accepted at two indices in the same order. *)
Lemma filterFrom_lookup_order {A} (f : A -> nat -> bool) (l : list A) :
  forall (i a b : nat) (x y : A),
    filterFrom f i l !! a = Some x ->
    filterFrom f i l !! b = Some y ->
    (a < b)%nat ->
    exists ka kb : nat,
      (ka < kb)%nat
      /\ f x (i + ka)%nat = true
      /\ f y (i + kb)%nat = true.
Proof.
  induction l as [|c l IH]; intros i a b x y Ha Hb Hab; [discriminate|].
  cbn [filterFrom] in Ha, Hb. destruct (f c i) eqn:Hf.
  - destruct b as [|b]; [lia|]. destruct a as [|a].
    + injection Ha as ->.
      change (filterFrom f (S i) l !! b = Some y) in Hb.
      apply list_elem_of_lookup_2, list_elem_of_In in Hb.
      destruct (filterFrom_In_index f l y (S i) Hb) as (k & _ & Hk).
      exists 0%nat, (S k). split; [lia|].
      rewrite Nat.add_0_r. split; [exact Hf|]. now rewrite Nat.add_succ_r.
    + destruct (IH (S i) a b x y Ha Hb ltac:(lia)) as (ka & kb & Hlt & Hx & Hy).
      exists (S ka), (S kb). split; [lia|]. now rewrite !Nat.add_succ_r.
  - destruct (IH (S i) a b x y Ha Hb Hab) as (ka & kb & Hlt & Hx & Hy).
    exists (S ka), (S kb). split; [lia|]. now rewrite !Nat.add_succ_r.
Qed.

End TypeOptions.

(** X15.  The activity type options list every type that occurs among the
    activities exactly once, in the order of the first occurrences:
    [indexOf] gives the least index at which a type occurs, and of two
    options the earlier one has the smaller such index.  Each option has the
    label made of its emoji, a space and the type. *)
Theorem activity_type_options_first_occurrences
    (activityTypeEmojis : string -> string) (activities : list SummaryActivity) :
  let options := activityTypeOptions activityTypeEmojis activities in
  let types := map summaryType activities in
  let values := map optionValue options in
  NoDup values
  /\ (forall t : string, In t values <-> In t types)
  /\ values `sublist_of` types
  /\ (forall (t : string) (k : nat),
        types !! k = Some t ->
        (0 <= indexOf types t <= Z.of_nat k)%Z
        /\ types !! Z.to_nat (indexOf types t) = Some t)
  /\ (forall (i j : nat) (t u : string),
        values !! i = Some t -> values !! j = Some u -> (i < j)%nat ->
        (indexOf types t < indexOf types u)%Z)
  /\ Forall (fun o => optionLabel o
                      = activityTypeEmojis (optionValue o) +:+ " " +:+ optionValue o)
            options.
Proof.
  intros options types values. subst values options.
  unfold activityTypeOptions. fold types.
  rewrite map_map. cbn [optionValue]. rewrite map_id.
  split; [apply first_occurrences_NoDup|].
  split; [|split; [|split; [|split]]].
  - intros t. split.
    + intros Hin. apply list_elem_of_In. apply list_elem_of_In in Hin.
      eapply elem_of_sublist; [exact Hin|apply filterFrom_sublist].
    + intros Hin. destruct (indexOfFrom_first t types Hin 0) as (k & Hk & Hidx).
      apply (filterFrom_In_kept _ types t 0 k Hk). now apply Z.eqb_eq.
  - apply filterFrom_sublist.
  - intros t k Hk.
    pose proof (indexOfFrom_least t types 0 k Hk) as Hle.
    assert (Hin : In t types)
      by (apply list_elem_of_In; eapply list_elem_of_lookup_2; exact Hk).
    destruct (indexOfFrom_first t types Hin 0) as (k' & Hk' & Hidx).
    unfold indexOf. split; [exact Hle|].
    rewrite Hidx, Nat2Z.id. exact Hk'.
  - intros i j t u Hi Hj Hij. unfold arrayFilter in Hi, Hj.
    destruct (filterFrom_lookup_order _ types 0 i j t u Hi Hj Hij)
      as (ka & kb & Hlt & Ht & Hu).
    apply Z.eqb_eq in Ht, Hu. lia.
  - apply Forall_forall. intros o Ho. apply list_elem_of_In, in_map_iff in Ho.
    destruct Ho as (t & <- & _). reflexivity.
Qed.

(** A type that comes back later keeps the place of its first
    occurrence. *)
Example activity_type_options_example :
  map optionValue
    (activityTypeOptions (fun _ => "*")
       [mkSummaryActivity "Ride"; mkSummaryActivity "Run"; mkSummaryActivity "Ride"])
  = ["Ride"; "Run"].
Proof. reflexivity. Qed.

(** ** The routes handed to the map *)
Section RouteFilter.

Lemma toTimestamp_gt (a b : Z) :
  gtNumber (toTimestamp (Some a)) (toTimestamp (Some b)) = (b <? a)%Z.
Proof.
  cbn [toTimestamp fmap option_fmap option_map gtNumber].
  assert (Ea : inject_Z a / 1000 * 1000 == inject_Z a) by (field; discriminate).
  assert (Eb : inject_Z b / 1000 * 1000 == inject_Z b) by (field; discriminate).
  destruct (Z.ltb_spec b a) as [Hlt|Hge].
  - apply negb_true_iff, Qle_bool_false. rewrite Zlt_Qlt in Hlt. lra.
  - apply negb_false_iff, Qle_bool_iff. rewrite Zle_Qle in Hge. lra.
Qed.

Lemma waypointInside_true (values : FilterValues) (wp : Waypoint) :
  waypointInside values wp = true
  <-> (lowerLat (valuesBounds values) < lat wp
       /\ lat wp < upperLat (valuesBounds values))
      /\ (leftLon (valuesBounds values) < lon wp
          /\ lon wp < rightLon (valuesBounds values)).
Proof.
  unfold waypointInside.
  rewrite !andb_true_iff, !negb_true_iff, !Qle_bool_false. tauto.
Qed.

(** What the callback of the filter accepts. *)
Lemma keepRoute_true (values : FilterValues) (route : Route) :
  keepRoute values route = true
  <-> (exists s e : Z,
          valuesStartDate values = Some s /\ valuesEndDate values = Some e
          /\ (s < startDate route < e)%Z)
      /\ In (activityType route) (activityTypes values)
      /\ (useCustomCoords values = true ->
          exists wp, In wp (waypoints route) /\ waypointInside values wp = true).
Proof.
  unfold keepRoute, ltNumber.
  rewrite !andb_true_iff, orb_true_iff, negb_true_iff, bool_decide_eq_true,
    list_elem_of_In, existsb_exists.
  destruct (valuesStartDate values) as [s|], (valuesEndDate values) as [e|];
    try (split; [intros [[[H _] _] _]|intros [(? & ? & ? & ? & _) _]];
         try discriminate;
         cbn [toTimestamp fmap option_fmap option_map gtNumber] in H;
         discriminate H).
  - rewrite !toTimestamp_gt, !Z.ltb_lt. split.
    + intros [[[Hs He] Ht] Hc]. split; [exists s, e; auto|]. split; [exact Ht|].
      intros Hu. destruct Hc as [Hc|Hc]; [congruence|exact Hc].
    + intros [(s' & e' & [= <-] & [= <-] & Hs & He) [Ht Hc]].
      repeat split; try assumption.
      destruct (useCustomCoords values); [right; now apply Hc|now left].
  - split; [intros [[[_ H] _] _]|intros [(? & ? & ? & ? & _) _]];
      [|discriminate].
    cbn [toTimestamp fmap option_fmap option_map gtNumber] in H. discriminate H.
Qed.

Lemma filter_sublist_impl {A} (f g : A -> bool) (l : list A) :
  (forall x, In x l -> f x = true -> g x = true) ->
  List.filter f l `sublist_of` List.filter g l.
Proof.
  induction l as [|a l IH]; intros H; [constructor|].
  assert (IH' : List.filter f l `sublist_of` List.filter g l).
  { apply IH. intros x Hx. apply H. now right. }
  simpl. destruct (f a) eqn:Hf.
  - rewrite (H a (or_introl eq_refl) Hf). now apply sublist_skip.
  - destruct (g a); [now apply sublist_cons|exact IH'].
Qed.

End RouteFilter.

(** X16.  With custom coordinates switched on, every route the filter lets
    through has a waypoint strictly inside the bounds of the form; so the
    bounds are non-degenerate, and a route without waypoints never
    passes. *)
Theorem kept_route_has_waypoint_inside (values : FilterValues)
    (routes : list Route) (route : Route) :
  useCustomCoords values = true ->
  In route (routesToRender values routes) ->
  let b := valuesBounds values in
  (leftLon b < rightLon b /\ lowerLat b < upperLat b)
  /\ waypoints route <> []
  /\ exists wp : Waypoint,
       In wp (waypoints route)
       /\ (lowerLat b < lat wp /\ lat wp < upperLat b)
       /\ (leftLon b < lon wp /\ lon wp < rightLon b).
Proof.
  intros Hu Hin b. unfold routesToRender in Hin.
  apply filter_In in Hin as [_ Hkeep].
  apply keepRoute_true in Hkeep as (_ & _ & Hc).
  destruct (Hc Hu) as (wp & Hwp & Hinside).
  apply waypointInside_true in Hinside as [[Hlo Hup] [Hl Hr]].
  fold b in Hlo, Hup, Hl, Hr.
  split; [split; lra|].
  split; [intros E; rewrite E in Hwp; destruct Hwp|].
  exists wp. split; [exact Hwp|]. split; now split.
Qed.

Lemma kept_route_has_waypoint_inside_witness :
  let values := mkFilterValues (Some 1577836800000%Z) (Some 1609459200000%Z) ["Ride"]
                  true (mkGeoBounds (-10) 10 10 (-10)) in
  let ride := mkRoute 1 "ride" 1590000000000 "Ride"
                [mkCoords 40 40; mkCoords 5 5; mkCoords (-40) 0] in
  let indoor := mkRoute 2 "trainer" 1590000000000 "Ride" [] in
  routesToRender values [indoor; ride] = [ride]
  /\ waypoints ride <> []
  /\ exists wp : Waypoint,
       In wp (waypoints ride)
       /\ (leftLon (valuesBounds values) < lon wp
           /\ lon wp < rightLon (valuesBounds values)).
Proof.
  intros values ride indoor.
  assert (E : routesToRender values [indoor; ride] = [ride]) by reflexivity.
  split; [exact E|].
  destruct (kept_route_has_waypoint_inside values [indoor; ride] ride eq_refl)
    as (_ & Hne & wp & Hwp & _ & Hlon).
  - rewrite E. now left.
  - split; [exact Hne|]. exists wp. split; [exact Hwp|exact Hlon].
Defined.

(** X17.  The filter lets no route through when a date of the form is
    invalid, when the end date is not after the start date, or when custom
    coordinates are switched on with bounds that are empty or inverted. *)
Theorem filter_rejects_everything (values : FilterValues) (routes : list Route) :
  valuesStartDate values = None
  \/ valuesEndDate values = None
  \/ (exists s e : Z,
        valuesStartDate values = Some s /\ valuesEndDate values = Some e
        /\ (e <= s)%Z)
  \/ (useCustomCoords values = true
      /\ (upperLat (valuesBounds values) <= lowerLat (valuesBounds values)
          \/ rightLon (valuesBounds values) <= leftLon (valuesBounds values))) ->
  routesToRender values routes = [].
Proof.
  intros H. unfold routesToRender.
  induction routes as [|r routes IH]; [reflexivity|].
  simpl. destruct (keepRoute values r) eqn:Hk; [|exact IH].
  exfalso. apply keepRoute_true in Hk as ((s & e & Hs & He & Hse) & _ & Hc).
  destruct H as [H|[H|[(s' & e' & Hs' & He' & Hle)|[Hu Hb]]]]; try congruence.
  - rewrite Hs in Hs'. rewrite He in He'. injection Hs' as <-. injection He' as <-. lia.
  - destruct (Hc Hu) as (wp & _ & Hin).
    apply waypointInside_true in Hin as [[Hlo Hup] [Hl Hr]].
    destruct Hb as [Hb|Hb]; lra.
Qed.

Lemma filter_rejects_everything_witness :
  let values := mkFilterValues (Some 1577836800000%Z) (Some 1609459200000%Z) ["Ride"]
                  true (mkGeoBounds 10 (-10) 10 (-10)) in
  let ride := mkRoute 1 "ride" 1590000000000 "Ride" [mkCoords 5 5] in
  (useCustomCoords values = true
   /\ rightLon (valuesBounds values) <= leftLon (valuesBounds values))
  /\ routesToRender values [ride] = [].
Proof.
  intros values ride.
  assert (Hu : useCustomCoords values = true) by reflexivity.
  assert (Hb : rightLon (valuesBounds values) <= leftLon (valuesBounds values))
    by discriminate.
  split; [split; assumption|].
  apply (filter_rejects_everything values [ride]).
  right. right. right. split; [exact Hu|]. right. exact Hb.
Defined.

(** X18.  Widening the form never loses a route: with an earlier or equal
    start date, a later or equal end date, at least the same activity types,
    and custom coordinates either switched off or switched on before and
    after with bounds that contain the old ones, the routes let through
    before are still let through, in the same order. *)
Theorem filter_widening (values values' : FilterValues) (routes : list Route) :
  (forall s, valuesStartDate values = Some s ->
             exists s', valuesStartDate values' = Some s' /\ (s' <= s)%Z) ->
  (forall e, valuesEndDate values = Some e ->
             exists e', valuesEndDate values' = Some e' /\ (e <= e')%Z) ->
  (forall t, In t (activityTypes values) -> In t (activityTypes values')) ->
  (useCustomCoords values' = true ->
   let b := valuesBounds values in
   let b' := valuesBounds values' in
   useCustomCoords values = true
   /\ lowerLat b' <= lowerLat b /\ upperLat b <= upperLat b'
   /\ leftLon b' <= leftLon b /\ rightLon b <= rightLon b') ->
  routesToRender values routes `sublist_of` routesToRender values' routes.
Proof.
  intros Hs He Ht Hc. apply filter_sublist_impl. intros r _ Hk.
  apply keepRoute_true in Hk as ((s & e & Es & Ee & Hse) & Hty & Hin).
  apply keepRoute_true.
  destruct (Hs s Es) as (s' & Es' & Hs'). destruct (He e Ee) as (e' & Ee' & He').
  split; [exists s', e'; repeat split; try assumption; lia|].
  split; [now apply Ht|].
  intros Hu'. destruct (Hc Hu') as (Hu & Hlo & Hup & Hl & Hr).
  destruct (Hin Hu) as (wp & Hwp & Hinside). exists wp. split; [exact Hwp|].
  apply waypointInside_true in Hinside as [[H1 H2] [H3 H4]].
  apply waypointInside_true. repeat split; lra.
Qed.

Lemma filter_widening_witness :
  let narrow := mkFilterValues (Some 1577836800000%Z) (Some 1609459200000%Z) ["Ride"]
                  true (mkGeoBounds (-10) 10 10 (-10)) in
  let wide := mkFilterValues (Some 1546300800000%Z) (Some 1609459200000%Z) ["Ride"; "Run"]
                false (mkGeoBounds (-10) 10 10 (-10)) in
  let ride := mkRoute 1 "ride" 1590000000000 "Ride" [mkCoords 5 5] in
  let run := mkRoute 2 "run" 1560000000000 "Run" [mkCoords 50 50] in
  routesToRender narrow [run; ride] `sublist_of` routesToRender wide [run; ride].
Proof.
  intros narrow wide ride run.
  apply (filter_widening narrow wide [run; ride]).
  - intros s [= <-]. eexists. split; [reflexivity|lia].
  - intros e [= <-]. eexists. split; [reflexivity|lia].
  - intros t [<-|[]]. now left.
  - discriminate.
Defined.

(** ** The table of memoized bounds *)
Section Memo.

Variable numberToString : Q -> string.

(** One call: the table only grows, and afterwards it holds the object
    returned under the key of the argument. *)
Lemma memoizedGeoBounds_stored (memo : gmap string GeoBounds) (bounds : GeoBounds) :
  memo ⊆ (memoizedGeoBounds numberToString memo bounds).2
  /\ (memoizedGeoBounds numberToString memo bounds).2 !! boundsKey numberToString bounds
     = Some (memoizedGeoBounds numberToString memo bounds).1
  /\ (memo !! boundsKey numberToString bounds = None ->
      (memoizedGeoBounds numberToString memo bounds).1 = bounds)
  /\ (forall k, k <> boundsKey numberToString bounds ->
      (memoizedGeoBounds numberToString memo bounds).2 !! k = memo !! k).
Proof.
  unfold memoizedGeoBounds. destruct (memo !! boundsKey numberToString bounds) as [stored|] eqn:E;
    cbn [fst snd].
  - repeat split; try done.
  - repeat split; try done.
    + now apply insert_subseteq.
    + apply lookup_insert_eq.
    + intros k Hk. now apply lookup_insert_ne.
Qed.

Lemma memoizedCalls_cons (memo : gmap string GeoBounds) (bounds : GeoBounds)
    (calls : list GeoBounds) :
  memoizedCalls numberToString memo (bounds :: calls)
  = ((memoizedGeoBounds numberToString memo bounds).1
     :: (memoizedCalls numberToString
           (memoizedGeoBounds numberToString memo bounds).2 calls).1,
     (memoizedCalls numberToString
        (memoizedGeoBounds numberToString memo bounds).2 calls).2).
Proof.
  cbn [memoizedCalls].
  destruct (memoizedGeoBounds numberToString memo bounds) as [r m1].
  cbn [fst snd]. now destruct (memoizedCalls numberToString m1 calls) as [rs m2].
Qed.

Lemma memoizedCalls_stored (calls : list GeoBounds) :
  forall memo : gmap string GeoBounds,
    memo ⊆ (memoizedCalls numberToString memo calls).2
    /\ length (memoizedCalls numberToString memo calls).1 = length calls
    /\ forall (i : nat) (b r : GeoBounds),
         calls !! i = Some b ->
         (memoizedCalls numberToString memo calls).1 !! i = Some r ->
         (memoizedCalls numberToString memo calls).2 !! boundsKey numberToString b = Some r.
Proof.
  induction calls as [|c calls IH]; intros memo.
  - repeat split; try done.
  - rewrite memoizedCalls_cons. cbn [fst snd].
    destruct (memoizedGeoBounds_stored memo c) as (Hsub & Hkey & _).
    destruct (IH (memoizedGeoBounds numberToString memo c).2) as (Hsub' & Hlen & Hall).
    split; [now transitivity (memoizedGeoBounds numberToString memo c).2|].
    split; [simpl; now rewrite Hlen|].
    intros [|i] b r Hb Hr; simpl in Hb, Hr.
    + injection Hb as <-. injection Hr as <-.
      eapply lookup_weaken; [exact Hkey|exact Hsub'].
    + now apply (Hall i).
Qed.

(** From a table without the key, the object returned is the argument of
    the first call with that key. *)
Lemma memoizedCalls_first (calls : list GeoBounds) :
  forall (memo : gmap string GeoBounds) (i : nat) (b r : GeoBounds),
    calls !! i = Some b ->
    (memoizedCalls numberToString memo calls).1 !! i = Some r ->
    memo !! boundsKey numberToString b = None ->
    exists j : nat,
      (j <= i)%nat /\ calls !! j = Some r /\ boundsKey numberToString r = boundsKey numberToString b
      /\ forall (j' : nat) (b' : GeoBounds),
           (j' < j)%nat -> calls !! j' = Some b' -> boundsKey numberToString b' <> boundsKey numberToString b.
Proof.
  induction calls as [|c calls IH]; intros memo i b r Hb Hr Hnone; [discriminate|].
  rewrite memoizedCalls_cons in Hr. cbn [fst] in Hr.
  destruct (memoizedGeoBounds_stored memo c) as (_ & Hkey & Hfresh & Hother).
  destruct i as [|i]; simpl in Hb, Hr.
  - injection Hb as <-. injection Hr as <-. rewrite (Hfresh Hnone).
    exists 0%nat. repeat split; try done. intros j' b' Hj'. lia.
  - destruct (decide (boundsKey numberToString c = boundsKey numberToString b)) as [E|Hne].
    + rewrite <- E in Hnone. rewrite (Hfresh Hnone) in Hkey.
      destruct (memoizedCalls_stored calls (memoizedGeoBounds numberToString memo c).2)
        as (Hsub & _ & Hall).
      pose proof (Hall i b r Hb Hr) as Hr'.
      pose proof (lookup_weaken _ _ _ _ Hkey Hsub) as Hc.
      rewrite E in Hc. rewrite Hc in Hr'. injection Hr' as <-.
      exists 0%nat. repeat split; try done; [lia|]. intros j' b' Hj'. lia.
    + assert (Hnone' : (memoizedGeoBounds numberToString memo c).2 !! boundsKey numberToString b = None).
      { rewrite Hother by congruence. exact Hnone. }
      destruct (IH _ i b r Hb Hr Hnone') as (j & Hj & Hcj & Hk & Hfirst).
      exists (S j). repeat split; try done; [lia|].
      intros [|j'] b' Hj' Hb'; simpl in Hb'.
      * injection Hb' as <-. exact Hne.
      * apply (Hfirst j' b'); [lia|exact Hb'].
Qed.

End Memo.

(** X19.  Over any series of calls of [memoizedGeoBounds], whatever the
    table held before: the table only grows and keeps what it held; every
    call leaves the object it returns stored under the key of its argument;
    two calls whose arguments have the same key return the same object; and
    when the table did not hold the key at the start, that object is the
    argument of the first call with this key. *)
Theorem memoized_bounds_stable (numberToString : Q -> string)
    (memo : gmap string GeoBounds) (calls : list GeoBounds) :
  let results := (memoizedCalls numberToString memo calls).1 in
  let memo' := (memoizedCalls numberToString memo calls).2 in
  let key := boundsKey numberToString in
  memo ⊆ memo'
  /\ length results = length calls
  /\ (forall (i : nat) (b r : GeoBounds),
        calls !! i = Some b -> results !! i = Some r -> memo' !! key b = Some r)
  /\ (forall (i j : nat) (bi bj ri rj : GeoBounds),
        calls !! i = Some bi -> calls !! j = Some bj ->
        results !! i = Some ri -> results !! j = Some rj ->
        key bi = key bj -> ri = rj)
  /\ (forall (i : nat) (b r : GeoBounds),
        calls !! i = Some b -> results !! i = Some r -> memo !! key b = None ->
        exists j : nat,
          (j <= i)%nat /\ calls !! j = Some r /\ key r = key b
          /\ forall (j' : nat) (b' : GeoBounds),
               (j' < j)%nat -> calls !! j' = Some b' -> key b' <> key b).
Proof.
  intros results memo' key. subst results memo' key.
  destruct (memoizedCalls_stored numberToString calls memo) as (Hsub & Hlen & Hall).
  split; [exact Hsub|]. split; [exact Hlen|]. split; [exact Hall|]. split.
  - intros i j bi bj ri rj Hbi Hbj Hri Hrj Hk.
    pose proof (Hall i bi ri Hbi Hri) as Hi.
    pose proof (Hall j bj rj Hbj Hrj) as Hj.
    rewrite Hk in Hi. rewrite Hi in Hj. now injection Hj.
  - intros i b r. apply memoizedCalls_first.
Qed.

(** Two bounds that are equal as numbers but written with different
    fractions get one key from a conversion that prints the reduced
    fraction, and the second call returns the first object. *)
Lemma memoized_bounds_stable_witness :
  let numberToString := fun q : Q =>
    pretty (Qnum (Qred q)) +:+ "/" +:+ pretty (Zpos (Qden (Qred q))) in
  let b1 := mkGeoBounds (-10) 10 (1 # 2) (-10) in
  let b2 := mkGeoBounds (-10) 10 (2 # 4) (-10) in
  boundsKey numberToString b1 = boundsKey numberToString b2
  /\ (memoizedCalls numberToString ∅ [b1; b2]).1 = [b1; b1].
Proof.
  intros numberToString b1 b2.
  assert (Hk : boundsKey numberToString b1 = boundsKey numberToString b2)
    by (vm_compute; reflexivity).
  split; [exact Hk|].
  destruct (memoized_bounds_stable numberToString ∅ [b1; b2])
    as (_ & Hlen & _ & Hsame & Hfirst).
  destruct (memoizedCalls numberToString ∅ [b1; b2]).1 as [|r1 [|r2 [|r3 rs]]] eqn:E;
    try discriminate Hlen.
  assert (E1 : r1 = b1).
  { destruct (Hfirst 0%nat b1 r1 eq_refl eq_refl (lookup_empty _))
      as (j & Hj & Hc & _).
    destruct j; [|lia]. simpl in Hc. now injection Hc. }
  assert (E2 : r2 = r1) by (symmetry; exact (Hsame 0%nat 1%nat b1 b2 r1 r2 eq_refl eq_refl eq_refl eq_refl Hk)).
  now rewrite E2, E1.
Defined.

(** * Properties on binary64 *)

Local Set Warnings "-inexact-float".

(** ** Strokes and the catch-up loop *)
Section DoubleStrokes.

Import Double.

Variables (p : Double.Props) (canvas : Double.Canvas).







End DoubleStrokes.

(** With a positive integer step the callback of the filter on doubles is
    the one on integers. *)
Lemma double_keepWaypoint_Int (len : nat) (z : Z) (i : nat) :
  z <> 0%Z -> Double.keepWaypoint len (Double.Int z) i = keepWaypoint len z i.
Proof.
  intros Hz. unfold Double.keepWaypoint, keepWaypoint, Double.remainderIsZero,
    isMultipleOf.
  now destruct (Z.eqb_spec z 0).
Qed.

(** ** Decimation *)

Lemma double_decimate_kept (every : Double.Integral) (ws : list Double.Waypoint) :
  Double.decimate every ws
  = omap (fun i => ws !! i) (Double.keptIndices every (length ws)).
Proof.
  unfold Double.decimate, arrayFilter, Double.keptIndices.
  rewrite (filterFrom_omap (Double.keepWaypoint (length ws) every)).
  apply list_omap_ext, Forall2_same_length_lookup_2; [reflexivity|].
  intros i j k Hj Hk. rewrite Hj in Hk. injection Hk as <-.
  now rewrite Nat.sub_0_r.
Qed.

Lemma double_keptIndices_spec (every : Double.Integral) (len i : nat) :
  In i (Double.keptIndices every len)
  <-> (i < len)%nat
      /\ (i = 0%nat \/ Double.remainderIsZero every i = true \/ i = (len - 1)%nat).
Proof.
  unfold Double.keptIndices. rewrite filter_In, in_seq.
  unfold Double.keepWaypoint. rewrite !orb_true_iff, !Z.eqb_eq.
  split; intros [Hi H]; (split; [lia|]).
  - destruct H as [[H|H]|H]; [left; lia|right; left; exact H|right; right; lia].
  - destruct H as [H|[H|H]]; [left; left; lia|left; right; exact H|right; lia].
Qed.

(** C3.  Decimation preserves endpoints.  For a track of n >= 2 waypoints
    and a resolution r in (0, 1], a double, the filter keeps exactly the
    waypoints at index 0, at the indices i with [i % Math.ceil(1 / r) === 0]
    and at index n - 1, in their order; where the step is a non-zero integer
    these are the indices it divides.  Index 0 and index n - 1 are both kept,
    and the first and the last waypoint of the track are the first and the
    last of the decimated sequence. *)
Theorem decimation_preserves_endpoints (p : Double.Props) (route : Double.Route) :
  (2 <= length (Double.waypoints route))%nat ->
  PrimFloat.ltb 0 (Double.pathResolution p) = true ->
  PrimFloat.leb (Double.pathResolution p) 1 = true ->
  let ws := Double.waypoints route in
  let n := length ws in
  let every := Double.renderEveryNthPoint (Double.pathResolution p) in
  let kept := Double.keptIndices every n in
  Double.waypointsToRender p route = omap (fun i => ws !! i) kept
  /\ (forall i : nat,
        In i kept
        <-> (i < n)%nat
            /\ (i = 0%nat \/ Double.remainderIsZero every i = true
                \/ i = (n - 1)%nat))
  /\ (forall (z : Z) (i : nat),
        every = Double.Int z -> z <> 0%Z ->
        (Double.remainderIsZero every i = true <-> (z | Z.of_nat i)%Z))
  /\ In 0%nat kept
  /\ In (n - 1)%nat kept
  /\ head (Double.waypointsToRender p route) = head ws
  /\ last (Double.waypointsToRender p route) = last ws.
Proof.
  intros Hn _ _ ws n every kept.
  split; [apply double_decimate_kept|].
  split; [intros i; apply double_keptIndices_spec|].
  split.
  { intros z i -> Hz. cbn [Double.remainderIsZero].
    destruct (Z.eqb_spec z 0) as [E|_]; [contradiction|].
    now rewrite Z.eqb_eq, Z.rem_divide. }
  assert (Hn' : (2 <= length ws)%nat) by exact Hn.
  split; [apply double_keptIndices_spec; split; [unfold n; lia|now left]|].
  split; [apply double_keptIndices_spec; split; [unfold n; lia|now right; right]|].
  split.
  - unfold Double.waypointsToRender, Double.decimate, arrayFilter. fold ws.
    destruct ws as [|a ws']; [reflexivity|]. reflexivity.
  - unfold Double.waypointsToRender, Double.decimate, arrayFilter. fold ws.
    apply (filterFrom_last (Double.keepWaypoint (length ws) every)).
    + intros E. rewrite E in Hn'. simpl in Hn'. lia.
    + unfold Double.keepWaypoint.
      destruct (Z.eqb_spec (Z.of_nat (0 + length ws - 1)) (Z.of_nat (length ws) - 1))
        as [_|E]; [now rewrite orb_true_r|].
      lia.
Qed.

(** A third of the resolution on eight waypoints: [1 / 0.3333333333333333]
    is the double 3, and the waypoints 0, 3, 6 and 7 are kept. *)
Lemma decimation_preserves_endpoints_witness :
  let ws := map (fun i => Double.mkCoords (Double.ofInt i) (Double.ofInt i))
              [0; 1; 2; 3; 4; 5; 6; 7]%Z in
  let route := Double.mkRoute 1 "A" 0 "Ride" ws in
  let p := Double.mkProps (Double.mkGeoBounds (-10) 10 10 (-10))
             0.3333333333333333 0 1 5000 None "black" in
  Double.renderEveryNthPoint (Double.pathResolution p) = Double.Int 3
  /\ Double.keptIndices (Double.Int 3) 8 = [0; 3; 6; 7]%nat
  /\ In 0%nat (Double.keptIndices (Double.renderEveryNthPoint (Double.pathResolution p)) 8)
  /\ In 7%nat (Double.keptIndices (Double.renderEveryNthPoint (Double.pathResolution p)) 8)
  /\ last (Double.waypointsToRender p route) = last ws.
Proof.
  intros ws route p.
  pose proof (decimation_preserves_endpoints p route
                ltac:(simpl; lia) ltac:(reflexivity) ltac:(reflexivity))
    as (_ & _ & _ & H0 & Hlast & _ & Hl).
  split; [vm_compute; reflexivity|].
  split; [vm_compute; reflexivity|].
  split; [exact H0|].
  split; [exact Hlast|exact Hl].
Defined.

(** X5.  Where [Math.ceil(1 / pathResolution)] is an integer [every >= 1],
    the decimated sequence is a subsequence of the track, in its order, and
    a track of n >= 1 waypoints keeps 1 + ceil((n - 1) / every) of them; an
    empty track stays empty. *)
Theorem decimation_subsequence_count (p : Double.Props) (route : Double.Route)
    (every : Z) :
  Double.renderEveryNthPoint (Double.pathResolution p) = Double.Int every ->
  (1 <= every)%Z ->
  let n := Z.of_nat (length (Double.waypoints route)) in
  Double.waypointsToRender p route `sublist_of` Double.waypoints route
  /\ Z.of_nat (length (Double.waypointsToRender p route))
     = (if n =? 0 then 0 else 1 + (n - 1 + every - 1) / every)%Z.
Proof.
  intros Hevery Hpos n. split.
  - unfold Double.waypointsToRender, Double.decimate, arrayFilter.
    apply filterFrom_sublist.
  - unfold Double.waypointsToRender. rewrite Hevery.
    unfold Double.decimate, arrayFilter.
    rewrite (filterFrom_length (Double.keepWaypoint _ (Double.Int every))).
    rewrite (List.filter_ext _ (keepWaypoint (length (Double.waypoints route)) every))
      by (intros i; apply double_keepWaypoint_Int; lia).
    fold (keptIndices every (length (Double.waypoints route))).
    rewrite keptIndices_length by exact Hpos. subst n.
    destruct (length (Double.waypoints route)) as [|m]; [reflexivity|].
    destruct (Z.eqb_spec (Z.of_nat (S m)) 0) as [E|_]; [lia|].
    do 3 f_equal. lia.
Qed.

(** A third of the resolution keeps four of eight waypoints. *)
Lemma decimation_subsequence_count_witness :
  let ws := map (fun i => Double.mkCoords (Double.ofInt i) (Double.ofInt i))
              [0; 1; 2; 3; 4; 5; 6; 7]%Z in
  let route := Double.mkRoute 1 "A" 0 "Ride" ws in
  let p := Double.mkProps (Double.mkGeoBounds (-10) 10 10 (-10))
             0.3333333333333333 0 1 5000 None "black" in
  Double.waypointsToRender p route `sublist_of` ws
  /\ Z.of_nat (length (Double.waypointsToRender p route)) = 4%Z.
Proof.
  intros ws route p.
  exact (decimation_subsequence_count p route 3 ltac:(vm_compute; reflexivity)
           ltac:(lia)).
Defined.

(** ** The projection *)

(** C1.  Projection correctness.  With the bounds
    {leftLon: -10, rightLon: 10, upperLat: 10, lowerLat: -10} and a canvas of
    100 by 100, the coordinate {lat: 0, lon: 0} goes to the pixel (50, 50)
    and {lat: 10, lon: -10} to (0, 0).  For every coordinate, canvas and
    bounds, non-degenerate or not, the pixel is
    x = round(((180 + lon) - (180 + leftLon))
              / ((180 + rightLon) - (180 + leftLon)) * width) and
    y = round(((90 - lat) - (90 - upperLat))
              / ((90 - lowerLat) - (90 - upperLat)) * height),
    every operation of the two formulas being the one on doubles, rounded
    to nearest: in the same bounds the longitude 1.5 goes to x = 57, the
    double product being 57.49999999999999. *)
Theorem projection_correctness :
  let bounds := Double.mkGeoBounds (-10) 10 10 (-10) in
  let surface := Double.mkCanvas 100 100 in
  Double.coordinatesToBoundedCanvasPoint (Double.mkCoords 0 0) surface bounds
  = Double.mkPixel (Double.Int 50) (Double.Int 50)
  /\ Double.coordinatesToBoundedCanvasPoint (Double.mkCoords 10 (-10)) surface bounds
     = Double.mkPixel (Double.Int 0) (Double.Int 0)
  /\ Double.px (Double.coordinatesToBoundedCanvasPoint (Double.mkCoords 0 1.5)
                  surface bounds)
     = Double.Int 57
  /\ forall (c : Double.Coords) (canvas : Double.Canvas) (b : Double.GeoBounds),
       Double.coordinatesToBoundedCanvasPoint c canvas b
       = Double.mkPixel
           (Double.round
              (((180 + Double.lon c) - (180 + Double.leftLon b))
               / ((180 + Double.rightLon b) - (180 + Double.leftLon b))
               * Double.ofInt (Double.width canvas))%float)
           (Double.round
              (((90 - Double.lat c) - (90 - Double.upperLat b))
               / ((90 - Double.lowerLat b) - (90 - Double.upperLat b))
               * Double.ofInt (Double.height canvas))%float).
Proof.
  split; [vm_compute; reflexivity|].
  split; [vm_compute; reflexivity|].
  split; [vm_compute; reflexivity|].
  intros c canvas b. reflexivity.
Qed.

(** The formulas of the projection do not hold of the exact quotient and
    product: at the longitude 1.5 in the bounds -10 to 10 on a canvas of
    width 100 the exact product is 57.5, which rounds to 58, and the code
    returns 57. *)
Lemma projection_differs_from_exact_formula :
  ~ (forall (c : Double.Coords) (canvas : Double.Canvas) (b : Double.GeoBounds)
            (qc : Coords) (qb : GeoBounds),
        exactCoords c = Some qc ->
        exactBounds b = Some qb ->
        leftLon qb < rightLon qb ->
        lowerLat qb < upperLat qb ->
        Double.coordinatesToBoundedCanvasPoint c canvas b
        = Double.mkPixel
            (Double.Int
               (px (ProjectionSpec.project qc qb (Double.width canvas)
                      (Double.height canvas))))
            (Double.Int
               (py (ProjectionSpec.project qc qb (Double.width canvas)
                      (Double.height canvas))))).
Proof.
  intros H.
  specialize (H (Double.mkCoords 0 1.5) (Double.mkCanvas 100 100)
                (Double.mkGeoBounds (-10) 10 10 (-10))
                (mkCoords 0 (3 # 2)) (mkGeoBounds (-10) 10 10 (-10))).
  assert (E : Double.px
                (Double.coordinatesToBoundedCanvasPoint (Double.mkCoords 0 1.5)
                   (Double.mkCanvas 100 100) (Double.mkGeoBounds (-10) 10 10 (-10)))
              = Double.Int 57) by (vm_compute; reflexivity).
  rewrite H in E.
  - vm_compute in E. discriminate E.
  - vm_compute. reflexivity.
  - vm_compute. reflexivity.
  - reflexivity.
  - reflexivity.
Qed.

(** ** Validation of the resolution *)




(** What that call paints: the background and the one segment of the
    track. *)
Example nan_resolution_picture :
  Double.renderRoutes
    (Double.mkProps (Double.mkGeoBounds (-10) 10 10 (-10))
       PrimFloat.nan 0 1 5000 None "black")
    (Some (Double.mkCanvas 100 100))
    [Double.mkRoute 1 "A" 0 "Ride" [Double.mkCoords 0 0; Double.mkCoords 5 5]]
  = (Double.Fulfilled,
     [Double.ClearRect 0 0 100 100;
      Double.StrokeLine 1 "black"
        (Double.mkPixel (Double.Int 50) (Double.Int 50))
        (Double.mkPixel (Double.Int 75) (Double.Int 25))]).
Proof. vm_compute. reflexivity. Qed.

(** ** The catch-up policy *)



